(** * The canvas effects of the pixel portfolio ([src/App.jsx])

    A shallow embedding of the effect core of [App.jsx]: the [throttle]
    helper, the colour parser [hexToRgb], the dot lattice of [DotGrid]
    ([buildGrid], the per-frame [draw], [onMove], [onClick]) and the spark
    burst of [ClickSpark] ([easeFunc], the per-frame [draw], [handleClick]).

    Numbers.  A JavaScript number is modelled by a real number: the code
    takes square roots ([Math.sqrt], [Math.hypot]) and uses [Math.PI], so
    the exact model is [R].  Rounding of IEEE doubles, the infinities and
    NaN are outside the model; Rocq's [x / 0] is [0] where JavaScript gives
    an infinity or NaN, so a statement that depends on a quotient carries
    the non-nullity of the divisor as a hypothesis.  Loop counters and
    colour channels, which the code keeps integral, are [nat] and [Z].

    Strings are [string]s of one-byte characters. *)

From Stdlib Require Import Reals Lra Lia ZArith List String Ascii Bool.
Import ListNotations.

(** ** Numeric primitives of the host ([Math]) *)

Module JsMath.
Local Open Scope R_scope.

(** [Math.hypot(x, y)]. *)
Definition hypot (x y : R) : R := sqrt (x * x + y * y).

(** [Math.floor]. *)
Definition floor (x : R) : Z := Zfloor x.

(** [Math.round]: the nearest integer, a tie going up. *)
Definition round (x : R) : Z := Zfloor (x + / 2).

(** [Math.max]. *)
Definition max (x y : R) : R := Rmax x y.

End JsMath.

(** ** [throttle] (lines 11-20) *)

Module Throttle.
Local Open Scope R_scope.

Section Closure.
(** [A]: the arguments of the wrapped function; [S]: the state it acts on. *)
Context {A S : Type}.
Variable func : A -> S -> S.
Variable limit : R.

(** The closure's captured variable, [let lastCall = 0]. *)
Definition lastCall0 : R := 0.

(** One call of the returned function: [now] is what [performance.now()]
    returns during the call; the state is [lastCall] and the state of
    [func]. *)
Definition throttled (now : R) (args : A) (st : R * S) : R * S :=
  let (lastCall, s) := st in
  if Rge_dec (now - lastCall) limit
  then (now, func args s)
  else (lastCall, s).

(** A sequence of calls, oldest first. *)
Definition run (evs : list (R * A)) (st : R * S) : R * S :=
  fold_left (fun st ev => throttled (fst ev) (snd ev) st) evs st.

(** The calls that reach [func], with the time of each. *)
Fixpoint calls (lastCall : R) (evs : list (R * A)) : list (R * A) :=
  match evs with
  | [] => []
  | (now, args) :: rest =>
      if Rge_dec (now - lastCall) limit
      then (now, args) :: calls now rest
      else calls lastCall rest
  end.
End Closure.

(** Consecutive elements are at least [limit] apart. *)
Fixpoint spaced (limit : R) (ts : list R) : Prop :=
  match ts with
  | t1 :: ((t2 :: _) as rest) => t2 - t1 >= limit /\ spaced limit rest
  | _ => True
  end.

(** [xs] is [ys] with some elements dropped, order kept. *)
Inductive subseq {X : Type} : list X -> list X -> Prop :=
| subseq_nil : subseq [] []
| subseq_drop x xs ys : subseq xs ys -> subseq xs (x :: ys)
| subseq_keep x xs ys : subseq xs ys -> subseq (x :: xs) (x :: ys).

End Throttle.

(** ** [hexToRgb] (lines 22-30) *)

Module Color.
Local Open Scope string_scope.
Local Open Scope Z_scope.

Record rgb := { r : Z; g : Z; b : Z }.

(** The character class [[a-f\d]] under the [i] flag. *)
Definition hexDigitValue (c : ascii) : option Z :=
  let n := Z.of_nat (nat_of_ascii c) in
  if (48 <=? n) && (n <=? 57) then Some (n - 48)
  else if (97 <=? n) && (n <=? 102) then Some (n - 87)
  else if (65 <=? n) && (n <=? 70) then Some (n - 55)
  else None.

Definition isHexDigit (c : ascii) : bool :=
  match hexDigitValue c with Some _ => true | None => false end.

(** The optional [#] at the start of the pattern. *)
Definition stripHash (hex : string) : string :=
  match hex with
  | String c rest => if Ascii.eqb c "#" then rest else hex
  | "" => hex
  end.

(** Three groups of two hex digits, and the end of the string. *)
Definition sixHex (body : string) : option (string * string * string) :=
  match body with
  | String c1 (String c2 (String c3 (String c4 (String c5 (String c6 ""))))) =>
      if forallb isHexDigit [c1; c2; c3; c4; c5; c6]
      then Some (String c1 (String c2 ""),
                 String c3 (String c4 ""),
                 String c5 (String c6 ""))
      else None
  | _ => None
  end.

(** [hex.match(/^#?([a-f\d]{2})([a-f\d]{2})([a-f\d]{2})$/i)]: the three
    groups, or [None] for [null]. *)
Definition hexMatch (hex : string) : option (string * string * string) :=
  sixHex (stripHash hex).

(** The digits of [parseInt(s, 16)]: the longest prefix of hex digits. *)
Fixpoint parseDigits (acc : Z) (s : string) : Z :=
  match s with
  | String c rest =>
      match hexDigitValue c with
      | Some v => parseDigits (16 * acc + v) rest
      | None => acc
      end
  | "" => acc
  end.

(** [parseInt(s, 16)] on a string with no leading white space, sign or
    [0x]: [None] is NaN (no digit to read). *)
Definition parseInt16 (s : string) : option Z :=
  match s with
  | String c _ => if isHexDigit c then Some (parseDigits 0 s) else None
  | "" => None
  end.

(** [hexToRgb].  The result is [None] when a channel would be NaN; the
    groups of a match are pairs of hex digits, so this never happens. *)
Definition hexToRgb (hex : string) : option rgb :=
  match hexMatch hex with
  | None => Some {| r := 0; g := 0; b := 0 |}
  | Some (m1, m2, m3) =>
      match parseInt16 m1, parseInt16 m2, parseInt16 m3 with
      | Some vr, Some vg, Some vb => Some {| r := vr; g := vg; b := vb |}
      | _, _, _ => None
      end
  end.

(** The pattern, read off the regular expression: an optional [#], then
    exactly six hex digits, and nothing else. *)
Definition strictHex (hex : string) : Prop :=
  exists c1 c2 c3 c4 c5 c6,
    Forall (fun c => isHexDigit c = true) [c1; c2; c3; c4; c5; c6] /\
    let body := String c1 (String c2 (String c3 (String c4 (String c5 (String c6 ""))))) in
    hex = body \/ hex = String "#" body.

(** The value of a hex digit, 0 for any other character. *)
Definition digit (c : ascii) : Z :=
  match hexDigitValue c with Some v => v | None => 0 end.

End Color.

(** ** [DotGrid] (lines 32-234) *)

Module DotGrid.
Import JsMath.
Local Open Scope R_scope.

(** The component's props, with the memoised [baseRgb] and [activeRgb]
    ([hexToRgb] of the two colour strings). *)
Record Props := {
  dotSize : R; gap : R;
  baseColor : string;
  baseRgb : Color.rgb; activeRgb : Color.rgb;
  proximity : R; speedTrigger : R;
  shockRadius : R; shockStrength : R;
  maxSpeed : R; resistance : R; returnDuration : R
}.

(** The defaults of the parameter list (line 33-35). *)
Definition defaultProps : Props := {|
  dotSize := 16; gap := 32;
  baseColor := "#5227FF";
  baseRgb := Color.Build_rgb 82 39 255; activeRgb := Color.Build_rgb 82 39 255;
  proximity := 150; speedTrigger := 100;
  shockRadius := 250; shockStrength := 5;
  maxSpeed := 5000; resistance := 750; returnDuration := 15 / 10
|}.

(** The props [App] passes (line 426-429). *)
Definition appProps : Props := {|
  dotSize := 2; gap := 26;
  baseColor := "#dcdcdc";
  baseRgb := Color.Build_rgb 220 220 220; activeRgb := Color.Build_rgb 255 140 0;
  proximity := 90; speedTrigger := 100;
  shockRadius := 250; shockStrength := 5;
  maxSpeed := 5000; resistance := 400; returnDuration := 5 / 10
|}.

Record Dot := {
  cx : R; cy : R;
  xOffset : R; yOffset : R;
  _inertiaApplied : bool
}.

(** [pointerRef.current]. *)
Record Pointer := {
  x : R; y : R; vx : R; vy : R; speed : R;
  lastTime : R; lastX : R; lastY : R
}.

(** The initial value of [pointerRef] (line 40). *)
Definition pointer0 : Pointer :=
  {| x := 0; y := 0; vx := 0; vy := 0; speed := 0;
     lastTime := 0; lastX := 0; lastY := 0 |}.

Record MouseEvent := { clientX : R; clientY : R }.

(** What [getBoundingClientRect()] gives. *)
Record Rect := { left : R; top : R; width : R; height : R }.

(** Comparisons of numbers as the booleans of the conditions. *)
Definition gtb (a b : R) : bool := if Rgt_dec a b then true else false.
Definition ltb (a b : R) : bool := if Rlt_dec a b then true else false.
Definition leb (a b : R) : bool := if Rle_dec a b then true else false.

(** *** [buildGrid] (lines 52-89) *)

(** [wrap] is the wrapper's rectangle, [None] when [wrapperRef] or
    [canvasRef] is not set (the early return, which leaves [dotsRef] as it
    is).  The sizing of the canvas does not touch the dots and is left out.
    A [for] loop up to an integer bound [n] runs [Z.to_nat n] times. *)
Definition buildGrid (p : Props) (wrap : option Rect) (dots : list Dot) : list Dot :=
  match wrap with
  | None => dots
  | Some rect =>
      let cols := floor ((width rect + gap p) / (dotSize p + gap p)) in
      let rows := floor ((height rect + gap p) / (dotSize p + gap p)) in
      let cell := dotSize p + gap p in
      let gridW := cell * IZR cols - gap p in
      let gridH := cell * IZR rows - gap p in
      let extraX := width rect - gridW in
      let extraY := height rect - gridH in
      let startX := extraX / 2 + dotSize p / 2 in
      let startY := extraY / 2 + dotSize p / 2 in
      flat_map (fun y =>
        map (fun x =>
          {| cx := startX + INR x * cell;
             cy := startY + INR y * cell;
             xOffset := 0; yOffset := 0; _inertiaApplied := false |})
          (seq 0 (Z.to_nat cols)))
        (seq 0 (Z.to_nat rows))
  end.

(** *** [draw] (lines 96-129) *)

(** [ctx.fillStyle]: the [baseColor] string, or the template
    [rgb(r,g,b)] of three integers. *)
Inductive Style :=
| Named (s : string)
| Rgb (r g b : Z).

(** One filled circle: [ctx.translate(ox, oy)], [ctx.fillStyle = style],
    [ctx.fill(circlePath)]. *)
Record Fill := { ox : R; oy : R; style : Style }.

(** The interpolation parameter of a dot at squared distance [dsq]. *)
Definition drawT (p : Props) (dsq : R) : R :=
  let dist := sqrt dsq in
  1 - dist / proximity p.

(** One channel: [Math.round(base + (active - base) * t)]. *)
Definition mix (base active : Z) (t : R) : Z :=
  round (IZR base + (IZR active - IZR base) * t).

(** The body of the loop over [dotsRef.current]. *)
Definition drawDot (p : Props) (px py : R) (dot : Dot) : Fill :=
  let proxSq := proximity p * proximity p in
  let ox := cx dot + xOffset dot in
  let oy := cy dot + yOffset dot in
  let dx := cx dot - px in
  let dy := cy dot - py in
  let dsq := dx * dx + dy * dy in
  let style :=
    if leb dsq proxSq then
      let t := drawT p dsq in
      let r := mix (Color.r (baseRgb p)) (Color.r (activeRgb p)) t in
      let g := mix (Color.g (baseRgb p)) (Color.g (activeRgb p)) t in
      let b := mix (Color.b (baseRgb p)) (Color.b (activeRgb p)) t in
      Rgb r g b
    else Named (baseColor p) in
  {| ox := ox; oy := oy; style := style |}.

(** One frame, the canvas and its context being there. *)
Definition draw (p : Props) (pr : Pointer) (dots : list Dot) : list Fill :=
  map (drawDot p (x pr) (y pr)) dots.

(** *** The animation library

    [gsap] is not code of this repository.  What [onMove] and [onClick]
    use of it: [gsap.to(target, vars)] starts a tween on [target] and
    returns at once; [gsap.killTweensOf(target)] removes every tween of
    [target], without calling its [onComplete]; a tween that runs to its
    end is removed and its [onComplete] is called; while a tween lives the
    library writes the animated properties on every tick.  The curves
    (inertia under [resistance], [elastic.out]) are not modelled: a tick
    carries the values written. *)

Inductive Tween :=
| Inertia (pushX pushY resistance : R)
    (* gsap.to(dot, { inertia: {xOffset: pushX, yOffset: pushY, resistance}, onComplete }) *)
| Return (duration : R).
    (* gsap.to(dot, { xOffset: 0, yOffset: 0, duration, ease: 'elastic.out(1,0.75)' }) *)

(** A dot object with the tweens the library holds for it. *)
Record Animated := { dot : Dot; tweens : list Tween }.

Definition killTweensOf (a : Animated) : Animated :=
  {| dot := dot a; tweens := [] |}.

Definition gsapTo (tw : Tween) (a : Animated) : Animated :=
  {| dot := dot a; tweens := tweens a ++ [tw] |}.

Definition setInertiaApplied (v : bool) (a : Animated) : Animated :=
  {| dot := {| cx := cx (dot a); cy := cy (dot a);
               xOffset := xOffset (dot a); yOffset := yOffset (dot a);
               _inertiaApplied := v |};
     tweens := tweens a |}.

Definition setOffsets (xo yo : R) (a : Animated) : Animated :=
  {| dot := {| cx := cx (dot a); cy := cy (dot a);
               xOffset := xo; yOffset := yo;
               _inertiaApplied := _inertiaApplied (dot a) |};
     tweens := tweens a |}.

(** *** [onMove] (lines 150-192) *)

(** Lines 151-164: the velocity of the sample, [(vx, vy, speed)], [now]
    being what [performance.now()] returns. *)
Definition velocity (p : Props) (now : R) (e : MouseEvent) (pr : Pointer) : R * R * R :=
  let dt := if Req_dec_T (lastTime pr) 0 then 16 else now - lastTime pr in
  let dx := clientX e - lastX pr in
  let dy := clientY e - lastY pr in
  let vx := (dx / dt) * 1000 in
  let vy := (dy / dt) * 1000 in
  let speed := hypot vx vy in
  if gtb speed (maxSpeed p) then
    let scale := maxSpeed p / speed in
    (vx * scale, vy * scale, maxSpeed p)
  else (vx, vy, speed).

(** Lines 151-174: the new pointer state, [rect] being the canvas's
    rectangle. *)
Definition movePointer (p : Props) (now : R) (e : MouseEvent) (rect : Rect)
    (pr : Pointer) : Pointer :=
  let '(vx, vy, speed) := velocity p now e pr in
  {| lastTime := now; lastX := clientX e; lastY := clientY e;
     vx := vx; vy := vy; speed := speed;
     x := clientX e - left rect; y := clientY e - top rect |}.

(** The condition of line 178, on the updated pointer. *)
Definition moveTriggers (p : Props) (pr : Pointer) (a : Animated) : bool :=
  let dist := hypot (cx (dot a) - x pr) (cy (dot a) - y pr) in
  gtb (speed pr) (speedTrigger p) && ltb dist (proximity p)
  && negb (_inertiaApplied (dot a)).

(** The body of the loop of lines 176-191 (the local [vx], [vy] and [speed]
    are the values just stored in [pr]). *)
Definition moveDot (p : Props) (pr : Pointer) (a : Animated) : Animated :=
  if moveTriggers p pr a then
    let a := setInertiaApplied true a in
    let a := killTweensOf a in
    let pushX := cx (dot a) - x pr + vx pr * (5 / 1000) in
    let pushY := cy (dot a) - y pr + vy pr * (5 / 1000) in
    gsapTo (Inertia pushX pushY (resistance p)) a
  else a.

(** *** [onClick] (lines 194-215) *)

(** The condition of line 200, [(cx, cy)] being the click in canvas
    coordinates. *)
Definition clickTriggers (p : Props) (clx cly : R) (a : Animated) : bool :=
  let dist := hypot (cx (dot a) - clx) (cy (dot a) - cly) in
  ltb dist (shockRadius p) && negb (_inertiaApplied (dot a)).

Definition clickDot (p : Props) (clx cly : R) (a : Animated) : Animated :=
  let dist := hypot (cx (dot a) - clx) (cy (dot a) - cly) in
  if clickTriggers p clx cly a then
    let a := setInertiaApplied true a in
    let a := killTweensOf a in
    let falloff := max 0 (1 - dist / shockRadius p) in
    let pushX := (cx (dot a) - clx) * shockStrength p * falloff in
    let pushY := (cy (dot a) - cly) * shockStrength p * falloff in
    gsapTo (Inertia pushX pushY (resistance p)) a
  else a.

(** *** The component's state and the events that change it *)

Record State := { pointer : Pointer; dots : list Animated }.

(** On mount: the initial [pointerRef] and an empty [dotsRef]. *)
Definition state0 : State := {| pointer := pointer0; dots := [] |}.

Inductive Event :=
| Resize (wrap : option Rect)
    (* buildGrid, on mount and from the resize observer *)
| MouseMove (now : R) (e : MouseEvent) (rect : Rect)
    (* a mousemove that the throttle lets through to onMove *)
| Click (e : MouseEvent) (rect : Rect)
| Tick (i : nat) (xo yo : R)
    (* the library writes the offsets of dot i, which has a live tween *)
| Complete (i k : nat).
    (* tween k of dot i runs to its end *)

(** A list without its [k]-th element. *)
Fixpoint remove_nth {X : Type} (k : nat) (l : list X) : list X :=
  match l, k with
  | [], _ => []
  | _ :: rest, O => rest
  | h :: rest, Datatypes.S k' => h :: remove_nth k' rest
  end.

(** Tween [k] of the dot ends.  An inertia tween calls the [onComplete] of
    lines 185-188 and 208-211: start the return tween, then clear the
    flag.  A return tween ends on its target values. *)
Definition completeTween (p : Props) (k : nat) (a : Animated) : Animated :=
  match nth_error (tweens a) k with
  | None => a
  | Some tw =>
      let a := {| dot := dot a; tweens := remove_nth k (tweens a) |} in
      match tw with
      | Inertia _ _ _ =>
          let a := gsapTo (Return (returnDuration p)) a in
          setInertiaApplied false a
      | Return _ => setOffsets 0 0 a
      end
  end.

Definition tickDot (xo yo : R) (a : Animated) : Animated :=
  match tweens a with
  | [] => a
  | _ :: _ => setOffsets xo yo a
  end.

(** Apply [f] to the [i]-th element. *)
Fixpoint update_nth {X : Type} (i : nat) (f : X -> X) (l : list X) : list X :=
  match l, i with
  | [], _ => []
  | h :: rest, O => f h :: rest
  | h :: rest, Datatypes.S i' => h :: update_nth i' f rest
  end.

Definition onMove (p : Props) (now : R) (e : MouseEvent) (rect : Rect)
    (st : State) : State :=
  let pr := movePointer p now e rect (pointer st) in
  {| pointer := pr; dots := map (moveDot p pr) (dots st) |}.

Definition onClick (p : Props) (e : MouseEvent) (rect : Rect) (st : State) : State :=
  let clx := clientX e - left rect in
  let cly := clientY e - top rect in
  {| pointer := pointer st; dots := map (clickDot p clx cly) (dots st) |}.

(** The dots of a rebuilt grid are new objects: no tween targets them. *)
Definition rebuild (p : Props) (wrap : option Rect) (st : State) : State :=
  match wrap with
  | None => st
  | Some _ =>
      {| pointer := pointer st;
         dots := map (fun d => {| dot := d; tweens := [] |})
                     (buildGrid p wrap (map dot (dots st))) |}
  end.

Definition step (p : Props) (st : State) (ev : Event) : State :=
  match ev with
  | Resize wrap => rebuild p wrap st
  | MouseMove now e rect => onMove p now e rect st
  | Click e rect => onClick p e rect st
  | Tick i xo yo =>
      {| pointer := pointer st; dots := update_nth i (tickDot xo yo) (dots st) |}
  | Complete i k =>
      {| pointer := pointer st; dots := update_nth i (completeTween p k) (dots st) |}
  end.

Definition run (p : Props) (evs : list Event) (st : State) : State :=
  fold_left (step p) evs st.

(** A pointer event: one of the two that can launch a displacement. *)
Definition isPointerEvent (ev : Event) : bool :=
  match ev with MouseMove _ _ _ | Click _ _ => true | _ => false end.

(** The dot has a displacement animation under way: a tween of either
    phase, the inertial impulse or the elastic return. *)
Definition animating (a : Animated) : bool :=
  match tweens a with [] => false | _ :: _ => true end.

(** The tweens of the dot are one inertia tween. *)
Definition inInertia (a : Animated) : bool :=
  match tweens a with [Inertia _ _ _] => true | _ => false end.

(** What holds of every dot the component can reach: the flag is set
    exactly while an inertia tween is the dot's only tween, and there is
    never more than one tween. *)
Definition dotInv (a : Animated) : Prop :=
  (List.length (tweens a) <= 1)%nat /\
  _inertiaApplied (dot a) = inInertia a.

(** *** Quantities the statements name *)

(** The dot of column [col] and row [row]. *)
Definition dotAt (p : Props) (rect : Rect) (col row : nat) : Dot :=
  let cell := dotSize p + gap p in
  let cols := floor ((width rect + gap p) / cell) in
  let rows := floor ((height rect + gap p) / cell) in
  let startX := (width rect - (cell * IZR cols - gap p)) / 2 + dotSize p / 2 in
  let startY := (height rect - (cell * IZR rows - gap p)) / 2 + dotSize p / 2 in
  {| cx := startX + INR col * cell; cy := startY + INR row * cell;
     xOffset := 0; yOffset := 0; _inertiaApplied := false |}.

(** The time step of a sample (line 153). *)
Definition dtOf (now : R) (pr : Pointer) : R :=
  if Req_dec_T (lastTime pr) 0 then 16 else now - lastTime pr.

(** The velocity before the clamp (lines 154-158). *)
Definition rawVx (now : R) (e : MouseEvent) (pr : Pointer) : R :=
  (clientX e - lastX pr) / dtOf now pr * 1000.
Definition rawVy (now : R) (e : MouseEvent) (pr : Pointer) : R :=
  (clientY e - lastY pr) / dtOf now pr * 1000.
Definition rawSpeed (now : R) (e : MouseEvent) (pr : Pointer) : R :=
  hypot (rawVx now e pr) (rawVy now e pr).

(** The distance of a dot's rest centre from the pointer. *)
Definition distTo (px py : R) (d : Dot) : R := hypot (cx d - px) (cy d - py).

(** *** A component with one dot

    With the default sizes a container of 16 by 16 holds one dot, centred
    at (8, 8). *)

Definition rect16 : Rect := {| left := 0; top := 0; width := 16; height := 16 |}.

Definition dot88 : Dot :=
  {| cx := 8; cy := 8; xOffset := 0; yOffset := 0; _inertiaApplied := false |}.

(** A click 5 px from that centre. *)
Definition click5 : MouseEvent := {| clientX := 11; clientY := 12 |}.

(** The dot after the grid is built and that click is made. *)
Definition clicked : Animated :=
  clickDot defaultProps (11 - 0) (12 - 0) {| dot := dot88; tweens := [] |}.

(** The dot once the inertia tween of that click has run to its end. *)
Definition returning : Animated := completeTween defaultProps 0 clicked.

(** The claim as it is worded: while a dot has a displacement animation
    under way, in either phase, no pointer event changes the dot. *)
Definition NoRetriggerUntilSettled (p : Props) : Prop :=
  forall (evs : list Event) (ev : Event) (i : nat) (a a' : Animated),
    nth_error (dots (run p evs state0)) i = Some a ->
    animating a = true ->
    isPointerEvent ev = true ->
    nth_error (dots (step p (run p evs state0) ev)) i = Some a' ->
    a' = a.

End DotGrid.

(** ** [ClickSpark] (lines 239-362) *)

Module ClickSpark.
Local Open Scope string_scope.
Local Open Scope R_scope.

(** The props; [sparkCount] is the [length] of the array of a burst, a
    natural number. *)
Record Props := {
  sparkColor : string;
  sparkSize : R; sparkRadius : R;
  sparkCount : nat;
  duration : R;
  easing : string;
  extraScale : R
}.

(** The defaults of the parameter list (lines 240-246). *)
Definition defaultProps : Props := {|
  sparkColor := "#fff";
  sparkSize := 10; sparkRadius := 15;
  sparkCount := 8;
  duration := 400;
  easing := "ease-out";
  extraScale := 1
|}.

(** The props [App] passes (line 422). *)
Definition appProps : Props := {|
  sparkColor := "#FF8C00";
  sparkSize := 12; sparkRadius := 25;
  sparkCount := 8;
  duration := 400;
  easing := "ease-out";
  extraScale := 1
|}.

Record Spark := { x : R; y : R; angle : R; startTime : R }.

Record MouseEvent := { clientX : R; clientY : R }.

(** [easeFunc] (lines 276-286): the [switch] on the [easing] string. *)
Definition easeFunc (p : Props) (t : R) : R :=
  if String.eqb (easing p) "linear" then t
  else if String.eqb (easing p) "ease-in" then t * t
  else if String.eqb (easing p) "ease-in-out" then
    if Rlt_dec t (5 / 10) then 2 * t * t else -1 + (4 - 2 * t) * t
  else t * (2 - t).

(** *** [draw] (lines 294-323) *)

(** The callback of [filter] returns [false] at line 300. *)
Definition expired (p : Props) (timestamp : R) (spark : Spark) : bool :=
  let elapsed := timestamp - startTime spark in
  if Rge_dec elapsed (duration p) then true else false.

(** Lines 302-303. *)
Definition eased (p : Props) (timestamp : R) (spark : Spark) : R :=
  let elapsed := timestamp - startTime spark in
  let progress := elapsed / duration p in
  easeFunc p progress.

(** Line 304. *)
Definition distance (p : Props) (timestamp : R) (spark : Spark) : R :=
  eased p timestamp spark * sparkRadius p * extraScale p.

(** Line 305. *)
Definition lineLength (p : Props) (timestamp : R) (spark : Spark) : R :=
  sparkSize p * (1 - eased p timestamp spark).

(** The stroke of lines 312-317: from [(x1, y1)] to [(x2, y2)]. *)
Record Line := { x1 : R; y1 : R; x2 : R; y2 : R }.

(** Lines 307-310. *)
Definition sparkLine (p : Props) (timestamp : R) (spark : Spark) : Line :=
  let distance := distance p timestamp spark in
  let lineLength := lineLength p timestamp spark in
  {| x1 := x spark + distance * cos (angle spark);
     y1 := y spark + distance * sin (angle spark);
     x2 := x spark + (distance + lineLength) * cos (angle spark);
     y2 := y spark + (distance + lineLength) * sin (angle spark) |}.

(** One frame: the new [sparksRef.current] and the lines stroked, one for
    each spark the filter keeps. *)
Definition draw (p : Props) (timestamp : R) (sparks : list Spark)
    : list Spark * list Line :=
  let live := filter (fun spark => negb (expired p timestamp spark)) sparks in
  (live, map (sparkLine p timestamp) live).

(** *** [handleClick] (lines 331-340) *)

(** [Array.from({ length: sparkCount }, (_, i) => ...)]. *)
Definition newSparks (p : Props) (now : R) (e : MouseEvent) : list Spark :=
  map (fun i =>
         {| x := clientX e; y := clientY e;
            angle := (2 * PI * INR i) / INR (sparkCount p);
            startTime := now |})
      (seq 0 (sparkCount p)).

(** [sparksRef.current.push(...newSparks)]. *)
Definition handleClick (p : Props) (now : R) (e : MouseEvent)
    (sparks : list Spark) : list Spark :=
  sparks ++ newSparks p now e.

(** Frames draw and filter; nothing else touches the collection. *)
Definition frames (p : Props) (timestamps : list R) (sparks : list Spark) : list Spark :=
  fold_left (fun sparks timestamp => fst (draw p timestamp sparks)) timestamps sparks.

End ClickSpark.

(** ** The grid's throttled handler (line 217) *)

Module Wiring.
Local Open Scope R_scope.

(** What a [mousemove] brings to [onMove]: the event, the time [onMove]
    reads and the canvas's rectangle. *)
Definition MoveArgs : Type := (R * DotGrid.MouseEvent * DotGrid.Rect)%type.

Definition onMoveArgs (p : DotGrid.Props) (args : MoveArgs) (st : DotGrid.State)
    : DotGrid.State :=
  let '(now, e, rect) := args in DotGrid.onMove p now e rect st.

(** [const throttledMove = throttle(onMove, 50)]. *)
Definition throttledMove (p : DotGrid.Props) (now : R) (args : MoveArgs)
    (st : R * DotGrid.State) : R * DotGrid.State :=
  Throttle.throttled (onMoveArgs p) 50 now args st.

End Wiring.

(** ** The host's timers

    [setTimeout] and [clearTimeout] are the browser's.  What the code uses
    of them: [setTimeout(f, ms)] called at time [now] arms a timer that
    calls [f] once, at some time not before [now + ms]; [clearTimeout]
    disarms a timer that has not fired and does nothing otherwise.  A
    timer is modelled by the time it is due. *)

(** ** The canvas of [ClickSpark] follows the window (lines 252-274) *)

Module SparkCanvas.
Local Open Scope R_scope.

(** [window.innerWidth] and [window.innerHeight], or [canvas.width] and
    [canvas.height]. *)
Record Size := { w : R; h : R }.

(** The effect's state: the window's size, the canvas's size and the
    timer [resizeTimeout] holds, if it is armed. *)
Record State := {
  window : Size;
  canvas : Size;
  resizeTimeout : option R
}.

(** [resizeCanvas] (lines 257-260). *)
Definition resizeCanvas (st : State) : State :=
  {| window := window st; canvas := window st; resizeTimeout := resizeTimeout st |}.

(** [handleResize] (lines 262-265), called at time [now]:
    [clearTimeout(resizeTimeout)], then
    [resizeTimeout = setTimeout(resizeCanvas, 100)]. *)
Definition handleResize (now : R) (st : State) : State :=
  {| window := window st; canvas := canvas st; resizeTimeout := Some (now + 100) |}.

(** The effect's body (lines 253-268): the listener is registered and
    [resizeCanvas()] is called once. *)
Definition mount (win canvas0 : Size) : State :=
  resizeCanvas {| window := win; canvas := canvas0; resizeTimeout := None |}.

Inductive Event :=
| WindowResized (now : R) (size : Size)
    (* the window takes a new size and dispatches 'resize' *)
| TimerFires (now : R).
    (* the host runs the armed timer, if it is due *)

Definition step (st : State) (ev : Event) : State :=
  match ev with
  | WindowResized now size =>
      handleResize now {| window := size; canvas := canvas st;
                          resizeTimeout := resizeTimeout st |}
  | TimerFires now =>
      match resizeTimeout st with
      | Some due =>
          if Rle_dec due now
          then resizeCanvas {| window := window st; canvas := canvas st;
                               resizeTimeout := None |}
          else st
      | None => st
      end
  end.

Definition run (evs : list Event) (st : State) : State := fold_left step evs st.

(** Whether the event makes [resizeCanvas] run. *)
Definition fires (st : State) (ev : Event) : bool :=
  match ev, resizeTimeout st with
  | TimerFires now, Some due => if Rle_dec due now then true else false
  | _, _ => false
  end.

(** The time of the last ['resize'] of a sequence of events. *)
Fixpoint lastResized (evs : list Event) : option R :=
  match evs with
  | [] => None
  | WindowResized now _ :: rest =>
      match lastResized rest with Some t => Some t | None => Some now end
  | TimerFires _ :: rest => lastResized rest
  end.

(** What every state keeps: the window's size is the size of the last
    ['resize'] (or the one at mount); with no timer armed the canvas has
    the window's size; an armed timer is due 100 ms after the last
    ['resize']. *)
Definition canvasInv (evs : list Event) (st : State) : Prop :=
  (resizeTimeout st = None -> canvas st = window st)
  /\ (forall due, resizeTimeout st = Some due ->
                  exists t, lastResized evs = Some t /\ due = t + 100).

End SparkCanvas.

(** ** [handlePunchEffect] (lines 371-376) *)

Module Punch.
Local Open Scope R_scope.

(** The [isPunching] state and the timers armed and not yet fired, oldest
    first. *)
Record State := { isPunching : bool; timers : list R }.

(** [useState(false)]. *)
Definition state0 : State := {| isPunching := false; timers := [] |}.

(** [setIsPunching(true); setTimeout(() => setIsPunching(false), 300)]. *)
Definition handlePunchEffect (now : R) (st : State) : State :=
  {| isPunching := true; timers := timers st ++ [now + 300] |}.

Inductive Event :=
| AvatarClicked (now : R)
| TimerFires (k : nat) (now : R).
    (* the host runs the k-th armed timer, if it is due *)

Fixpoint remove_nth (k : nat) (l : list R) : list R :=
  match l, k with
  | [], _ => []
  | _ :: rest, O => rest
  | t :: rest, Datatypes.S k' => t :: remove_nth k' rest
  end.

Definition step (st : State) (ev : Event) : State :=
  match ev with
  | AvatarClicked now => handlePunchEffect now st
  | TimerFires k now =>
      match nth_error (timers st) k with
      | Some due =>
          if Rle_dec due now
          then {| isPunching := false; timers := remove_nth k (timers st) |}
          else st
      | None => st
      end
  end.

Definition run (evs : list Event) (st : State) : State := fold_left step evs st.

(** What every state keeps: while [isPunching] is set a timer is armed,
    and every armed timer is due 300 ms after a click on the avatar. *)
Definition punchInv (evs : list Event) (st : State) : Prop :=
  (isPunching st = true -> timers st <> [])
  /\ (forall due, In due (timers st) ->
                  exists now, In (AvatarClicked now) evs /\ due = now + 300).

End Punch.

(** ** The text emphasis of [App] (lines 379-417) *)

Module TextEmphasis.
Import JsMath.
Local Open Scope string_scope.
Local Open Scope R_scope.

(** [const triggerRadius = 150]. *)
Definition triggerRadius : R := 150.

(** What [el.getBoundingClientRect()] gives. *)
Record Rect := { left : R; top : R; width : R; height : R }.

(** The [vars] of the [gsap.to(el, vars)] of either branch: [shadow] is
    the offset, in px, of the two first lengths of [textShadow], and
    [shadowColor] its colour; [overwrite: 'auto'] and [transformOrigin]
    are constants. *)
Record Vars := {
  scale : R;
  shadow : R;
  shadowColor : string;
  color : string;
  duration : R
}.

(** The distance of the pointer from the centre of the element's box
    (lines 387-390). *)
Definition distOf (rect : Rect) (mx my : R) : R :=
  let cx := left rect + width rect / 2 in
  let cy := top rect + height rect / 2 in
  hypot (cx - mx) (cy - my).

(** The body of [textElements.forEach] (lines 386-413). *)
Definition emphasis (rect : Rect) (mx my : R) : Vars :=
  let dist := distOf rect mx my in
  if Rlt_dec dist triggerRadius then
    let intensity := 1 - dist / triggerRadius in
    {| scale := 1 + (15 / 100) * intensity;
       shadow := 3 * intensity;
       shadowColor := "var(--primary-color)";
       color := "#333";
       duration := 1 / 10 |}
  else
    {| scale := 1;
       shadow := 0;
       shadowColor := "transparent";
       color := "";
       duration := 3 / 10 |}.

(** The handler: one [gsap.to] per element, in order. *)
Definition onMouseMove (rects : list Rect) (mx my : R) : list Vars :=
  map (fun rect => emphasis rect mx my) rects.

End TextEmphasis.

(** ** Quantities the further properties name *)

Module DotGridAux.
Import JsMath DotGrid.
Local Open Scope R_scope.

(** The columns and rows [buildGrid] computes. *)
Definition colsOf (p : Props) (rect : Rect) : nat :=
  Z.to_nat (floor ((width rect + gap p) / (dotSize p + gap p))).
Definition rowsOf (p : Props) (rect : Rect) : nat :=
  Z.to_nat (floor ((height rect + gap p) / (dotSize p + gap p))).

(** A container of 300 by 300. *)
Definition rect300 : Rect := {| left := 0; top := 0; width := 300; height := 300 |}.

(** The distance of a dot's rest centre from a click. *)
Definition clickDist (clx cly : R) (a : Animated) : R :=
  hypot (cx (dot a) - clx) (cy (dot a) - cly).

(** A pointer that comes from (0, 8) to (11, 12) in 10 ms, 5 px from the
    dot at (8, 8), with the default props. *)
Definition fastPointer : Pointer :=
  movePointer defaultProps 110 click5 rect16
    {| x := 0; y := 8; vx := 0; vy := 0; speed := 0;
       lastTime := 100; lastX := 0; lastY := 8 |}.

(** The rest centre of a dot. *)
Definition restOf (a : Animated) : R * R := (cx (dot a), cy (dot a)).

Definition isResize (ev : Event) : bool :=
  match ev with Resize _ => true | _ => false end.

(** A dot with no live tween has a zero offset. *)
Definition restInv (a : Animated) : Prop :=
  tweens a = [] -> xOffset (dot a) = 0 /\ yOffset (dot a) = 0.

End DotGridAux.

Module ClickSparkAux.
Import ClickSpark.
Local Open Scope string_scope.
Local Open Scope R_scope.

(** The angle of the [i]-th spark of a burst. *)
Definition angleOf (p : Props) (i : nat) : R := (2 * PI * INR i) / INR (sparkCount p).

(** The props of [App] with another easing. *)
Definition withEasing (name : string) : Props :=
  {| sparkColor := sparkColor appProps;
     sparkSize := sparkSize appProps; sparkRadius := sparkRadius appProps;
     sparkCount := sparkCount appProps;
     duration := duration appProps;
     easing := name;
     extraScale := extraScale appProps |}.

End ClickSparkAux.

(** * Properties *)

(** ** [throttle] *)

Module ThrottleFacts.
Import Throttle.
Local Open Scope R_scope.

Section Facts.
Context {A S : Type}.
Variable func : A -> S -> S.
Variable limit : R.

Lemma throttled_passes now args lastCall s :
  now - lastCall >= limit ->
  throttled func limit now args (lastCall, s) = (now, func args s).
Proof.
  intros H; unfold throttled.
  destruct (Rge_dec (now - lastCall) limit); [reflexivity | contradiction].
Qed.

Lemma throttled_drops now args lastCall s :
  now - lastCall < limit ->
  throttled func limit now args (lastCall, s) = (lastCall, s).
Proof.
  intros H; unfold throttled.
  destruct (Rge_dec (now - lastCall) limit); [lra | reflexivity].
Qed.

(** [run] calls [func] on the events of [calls], in order, and on no
    other. *)
Lemma run_calls evs : forall lastCall s,
  snd (run func limit evs (lastCall, s)) =
  fold_left (fun s ev => func (snd ev) s) (calls limit lastCall evs) s.
Proof.
  induction evs as [| [now args] rest IH]; intros lastCall s; [reflexivity |].
  unfold run in *; cbn [fold_left calls fst snd throttled].
  destruct (Rge_dec (now - lastCall) limit); cbn [fold_left snd]; apply IH.
Qed.
End Facts.

(** The first call that passes is at least [limit] after [lastCall], and
    the ones after it are spaced. *)
Lemma calls_spaced {A : Type} (limit : R) (evs : list (R * A)) : forall lastCall,
  spaced limit (lastCall :: map fst (calls limit lastCall evs)).
Proof.
  induction evs as [| [now args] rest IH]; intros lastCall; [exact I |].
  cbn [calls].
  destruct (Rge_dec (now - lastCall) limit) as [Hge | Hlt].
  - cbn [map fst]. split; [exact Hge | apply IH].
  - apply IH.
Qed.

Lemma spaced_tail limit t ts : spaced limit (t :: ts) -> spaced limit ts.
Proof. destruct ts; [intros; exact I | intros [_ H]; exact H]. Qed.

(** With a non-negative [limit], any two elements of a spaced list are
    at least [limit] apart, the later minus the earlier. *)
Lemma spaced_from_head limit ts : forall t,
  0 <= limit -> spaced limit (t :: ts) ->
  forall j tj, nth_error ts j = Some tj -> tj - t >= limit.
Proof.
  induction ts as [| t2 rest IH]; intros t Hl Hs j tj Hj.
  - destruct j; discriminate Hj.
  - destruct Hs as [H12 Hrest]. destruct j as [| j].
    + inversion Hj; subst. exact H12.
    + cbn [nth_error] in Hj. pose proof (IH t2 Hl Hrest j tj Hj). lra.
Qed.

Lemma spaced_pairwise limit ts :
  0 <= limit -> spaced limit ts ->
  forall i j ti tj, (i < j)%nat ->
    nth_error ts i = Some ti -> nth_error ts j = Some tj -> tj - ti >= limit.
Proof.
  intros Hl. induction ts as [| t rest IH]; intros Hs i j ti tj Hij Hi Hj.
  - destruct i; discriminate Hi.
  - destruct j as [| j]; [lia |]. cbn [nth_error] in Hj. destruct i as [| i].
    + inversion Hi; subst. apply (spaced_from_head limit rest ti Hl Hs j tj Hj).
    + cbn [nth_error] in Hi.
      apply (IH (spaced_tail _ _ _ Hs) i j ti tj); [lia | assumption | assumption].
Qed.

Lemma calls_subseq {A : Type} (limit : R) (evs : list (R * A)) : forall lastCall,
  subseq (calls limit lastCall evs) evs.
Proof.
  induction evs as [| [now args] rest IH]; intros lastCall; [constructor |].
  cbn [calls].
  destruct (Rge_dec (now - lastCall) limit); constructor; apply IH.
Qed.

(** C7.  For every sequence of calls of a throttled function, stamped with
    the times [performance.now()] returns: the calls that reach the wrapped
    function are a subsequence of the calls made, any two consecutive ones
    of them are at least [limit] apart (and so are any two of them, for a
    non-negative [limit]), the wrapped function runs on them
    and on nothing else (a call less than [limit] after the last one that
    passed changes nothing, so it is dropped and not queued); and
    [throttledMove] is this wrapper around [onMove] at 50 ms. *)
Theorem throttle_spacing :
  forall (A : Type) (limit : R) (evs : list (R * A)),
    spaced limit (map fst (calls limit lastCall0 evs))
    /\ (0 <= limit ->
        forall i j ti tj, (i < j)%nat ->
          nth_error (map fst (calls limit lastCall0 evs)) i = Some ti ->
          nth_error (map fst (calls limit lastCall0 evs)) j = Some tj ->
          tj - ti >= limit)
    /\ subseq (calls limit lastCall0 evs) evs
    /\ (forall (S : Type) (func : A -> S -> S) (s : S),
          snd (run func limit evs (lastCall0, s)) =
          fold_left (fun s ev => func (snd ev) s) (calls limit lastCall0 evs) s)
    /\ (forall (S : Type) (func : A -> S -> S) now args lastCall (s : S),
          now - lastCall < limit ->
          throttled func limit now args (lastCall, s) = (lastCall, s))
    /\ (forall p (moves : list (R * Wiring.MoveArgs)) st,
          spaced 50 (map fst (calls 50 lastCall0 moves))
          /\ snd (fold_left (fun st ev => Wiring.throttledMove p (fst ev) (snd ev) st)
                            moves (lastCall0, st)) =
             fold_left (fun st ev => Wiring.onMoveArgs p (snd ev) st)
                       (calls 50 lastCall0 moves) st).
Proof.
  intros A limit evs.
  assert (Hsp : forall l (es : list (R * A)), spaced l (map fst (calls l lastCall0 es)))
    by (intros l es; apply spaced_tail with (t := lastCall0); apply calls_spaced).
  split; [apply Hsp |].
  split; [intros Hl; apply spaced_pairwise; [exact Hl | apply Hsp] |].
  repeat split.
  - apply calls_subseq.
  - intros S func s. apply run_calls.
  - intros S func now args lastCall s H. apply throttled_drops; exact H.
  - apply spaced_tail with (t := lastCall0). apply calls_spaced.
  - apply (run_calls (Wiring.onMoveArgs p) 50 moves lastCall0 st).
Qed.

(** Four mouse moves at 10, 60, 70 and 120 ms: the ones at 60 and 120
    pass. *)
Lemma throttle_spacing_witness :
  calls 50 lastCall0 [(10, tt); (60, tt); (70, tt); (120, tt)] = [(60, tt); (120, tt)]
  /\ spaced 50 (map fst (calls 50 lastCall0 [(10, tt); (60, tt); (70, tt); (120, tt)]))
  /\ throttled (fun (_ : unit) (n : nat) => Datatypes.S n) 50 70 tt (60, 1%nat) = (60, 1%nat).
Proof.
  split; [| split].
  - unfold lastCall0; cbn [calls].
    repeat match goal with
           | |- context [Rge_dec ?a ?b] => destruct (Rge_dec a b); try lra
           end.
    reflexivity.
  - exact (proj1 (throttle_spacing unit 50 [(10, tt); (60, tt); (70, tt); (120, tt)])).
  - refine (proj1 (proj2 (proj2 (proj2 (proj2
             (throttle_spacing unit 50 []))))) nat _ 70 tt 60 1%nat _).
    lra.
Defined.

End ThrottleFacts.

(** ** [hexToRgb] *)

Module ColorFacts.
Import Color.
Local Open Scope string_scope.
Local Open Scope Z_scope.

Lemma hexDigitValue_range c v : hexDigitValue c = Some v -> 0 <= v <= 15.
Proof.
  unfold hexDigitValue.
  repeat match goal with
         | |- context [if ?b then _ else _] => destruct b eqn:?
         end; intros H; inversion H; subst; lia.
Qed.

Lemma isHexDigit_value c : isHexDigit c = true -> hexDigitValue c = Some (digit c).
Proof.
  unfold isHexDigit, digit. destruct (hexDigitValue c); [reflexivity | discriminate].
Qed.

Lemma digit_range c : 0 <= digit c <= 15.
Proof.
  unfold digit. destruct (hexDigitValue c) eqn:E; [| lia].
  apply hexDigitValue_range in E; exact E.
Qed.

Lemma hexDigit_not_hash c : isHexDigit c = true -> Ascii.eqb c "#" = false.
Proof.
  intros H. destruct (Ascii.eqb c "#") eqn:E; [| reflexivity].
  apply Ascii.eqb_eq in E; subst c. discriminate H.
Qed.

(** A group of two hex digits reads as a number below 256. *)
Lemma parseInt16_group c1 c2 :
  isHexDigit c1 = true -> isHexDigit c2 = true ->
  parseInt16 (String c1 (String c2 "")) = Some (16 * digit c1 + digit c2).
Proof.
  intros H1 H2. unfold parseInt16. rewrite H1. cbn [parseDigits].
  rewrite (isHexDigit_value _ H1), (isHexDigit_value _ H2). reflexivity.
Qed.

Lemma sixHex_Some body gs :
  sixHex body = Some gs ->
  exists c1 c2 c3 c4 c5 c6,
    Forall (fun c => isHexDigit c = true) [c1; c2; c3; c4; c5; c6]
    /\ body = String c1 (String c2 (String c3 (String c4 (String c5 (String c6 "")))))
    /\ gs = (String c1 (String c2 ""), String c3 (String c4 ""), String c5 (String c6 "")).
Proof.
  unfold sixHex.
  destruct body as [| c1 [| c2 [| c3 [| c4 [| c5 [| c6 [| c7 rest]]]]]]]; try discriminate.
  destruct (forallb isHexDigit [c1; c2; c3; c4; c5; c6]) eqn:E; [| discriminate].
  intros H; inversion H; subst gs.
  exists c1, c2, c3, c4, c5, c6. split; [| split; reflexivity].
  apply Forall_forall. apply (proj1 (forallb_forall _ _) E).
Qed.

Lemma sixHex_digits c1 c2 c3 c4 c5 c6 :
  Forall (fun c => isHexDigit c = true) [c1; c2; c3; c4; c5; c6] ->
  sixHex (String c1 (String c2 (String c3 (String c4 (String c5 (String c6 ""))))))
  = Some (String c1 (String c2 ""), String c3 (String c4 ""), String c5 (String c6 "")).
Proof.
  intros H. unfold sixHex.
  replace (forallb isHexDigit [c1; c2; c3; c4; c5; c6]) with true; [reflexivity |].
  symmetry. apply forallb_forall. apply Forall_forall. exact H.
Qed.

(** [hexMatch] decides the pattern. *)
Lemma hexMatch_strict hex : hexMatch hex <> None <-> strictHex hex.
Proof.
  unfold hexMatch, strictHex. split.
  - intros H. destruct (sixHex (stripHash hex)) as [gs |] eqn:E; [| congruence].
    apply sixHex_Some in E. destruct E as (c1 & c2 & c3 & c4 & c5 & c6 & Hd & Hb & _).
    exists c1, c2, c3, c4, c5, c6. split; [exact Hd |]. cbv zeta.
    destruct hex as [| c rest]; [discriminate Hb |].
    cbn [stripHash] in Hb. destruct (Ascii.eqb c "#") eqn:Ec.
    + apply Ascii.eqb_eq in Ec. subst. right. reflexivity.
    + left. exact Hb.
  - intros (c1 & c2 & c3 & c4 & c5 & c6 & Hd & [-> | ->]).
    + cbn [stripHash]. rewrite hexDigit_not_hash by (inversion Hd; assumption).
      rewrite (sixHex_digits _ _ _ _ _ _ Hd). discriminate.
    + cbn [stripHash]. rewrite Ascii.eqb_refl.
      rewrite (sixHex_digits _ _ _ _ _ _ Hd). discriminate.
Qed.

(** The channels of a string that matches. *)
Lemma hexToRgb_decodes c1 c2 c3 c4 c5 c6 hex :
  Forall (fun c => isHexDigit c = true) [c1; c2; c3; c4; c5; c6] ->
  stripHash hex = String c1 (String c2 (String c3 (String c4 (String c5 (String c6 ""))))) ->
  hexToRgb hex = Some {| r := 16 * digit c1 + digit c2;
                         g := 16 * digit c3 + digit c4;
                         b := 16 * digit c5 + digit c6 |}.
Proof.
  intros Hd Hs. unfold hexToRgb, hexMatch. rewrite Hs, (sixHex_digits _ _ _ _ _ _ Hd).
  repeat match goal with
         | H : Forall _ (_ :: _) |- _ => inversion H; clear H; subst
         end.
  rewrite !parseInt16_group by assumption. reflexivity.
Qed.

(** C8.  For every string: if it fails the strict pattern (an optional [#]
    and exactly six hex digits) the parser returns [{r: 0, g: 0, b: 0}]; if
    it matches, the parser returns the three channels decoded from the
    pairs of digits; in both cases it returns a colour (no error, no NaN)
    whose channels are integers from 0 to 255. *)
Theorem hexToRgb_fallback_or_decode :
  forall hex : string,
    (~ strictHex hex -> hexToRgb hex = Some {| r := 0; g := 0; b := 0 |})
    /\ (forall c1 c2 c3 c4 c5 c6,
          Forall (fun c => isHexDigit c = true) [c1; c2; c3; c4; c5; c6] ->
          let body := String c1 (String c2 (String c3 (String c4 (String c5 (String c6 ""))))) in
          hex = body \/ hex = String "#" body ->
          hexToRgb hex = Some {| r := 16 * digit c1 + digit c2;
                                 g := 16 * digit c3 + digit c4;
                                 b := 16 * digit c5 + digit c6 |})
    /\ (exists c, hexToRgb hex = Some c
                  /\ 0 <= r c <= 255 /\ 0 <= g c <= 255 /\ 0 <= b c <= 255).
Proof.
  intros hex.
  assert (Hfail : ~ strictHex hex -> hexToRgb hex = Some {| r := 0; g := 0; b := 0 |}).
  { intros Hn. unfold hexToRgb.
    destruct (hexMatch hex) as [gs |] eqn:E; [| reflexivity].
    exfalso. apply Hn. apply hexMatch_strict. congruence. }
  assert (Hdec : forall c1 c2 c3 c4 c5 c6,
          Forall (fun c => isHexDigit c = true) [c1; c2; c3; c4; c5; c6] ->
          let body := String c1 (String c2 (String c3 (String c4 (String c5 (String c6 ""))))) in
          hex = body \/ hex = String "#" body ->
          hexToRgb hex = Some {| r := 16 * digit c1 + digit c2;
                                 g := 16 * digit c3 + digit c4;
                                 b := 16 * digit c5 + digit c6 |}).
  { intros c1 c2 c3 c4 c5 c6 Hd body Hhex.
    apply hexToRgb_decodes; [exact Hd |].
    destruct Hhex as [-> | ->]; subst body; cbn [stripHash].
    - rewrite hexDigit_not_hash by (inversion Hd; assumption). reflexivity.
    - rewrite Ascii.eqb_refl. reflexivity. }
  split; [exact Hfail | split; [exact Hdec |]].
  destruct (hexMatch hex) as [gs |] eqn:E.
  - assert (Hs : strictHex hex) by (apply hexMatch_strict; congruence).
    destruct Hs as (c1 & c2 & c3 & c4 & c5 & c6 & Hd & Hhex).
    eexists. split; [apply (Hdec _ _ _ _ _ _ Hd Hhex) |].
    cbn [r g b].
    pose proof (digit_range c1). pose proof (digit_range c2).
    pose proof (digit_range c3). pose proof (digit_range c4).
    pose proof (digit_range c5). pose proof (digit_range c6). lia.
  - exists {| r := 0; g := 0; b := 0 |}. split; [| cbn; lia].
    unfold hexToRgb. rewrite E. reflexivity.
Qed.

(** The active colour [App] passes, and a three-digit shorthand, which the
    pattern refuses. *)
Lemma hexToRgb_fallback_or_decode_witness :
  hexToRgb "#FF8C00" = Some {| r := 255; g := 140; b := 0 |}
  /\ hexToRgb "#fff" = Some {| r := 0; g := 0; b := 0 |}.
Proof.
  split.
  - refine (proj1 (proj2 (hexToRgb_fallback_or_decode "#FF8C00"))
              "F"%char "F"%char "8"%char "C"%char "0"%char "0"%char _ _).
    + repeat constructor.
    + right. reflexivity.
  - apply (proj1 (hexToRgb_fallback_or_decode "#fff")).
    intros H. apply hexMatch_strict in H. apply H. reflexivity.
Defined.

End ColorFacts.

(** ** [DotGrid]: the lattice *)

Module GridFacts.
Import JsMath DotGrid.
Local Open Scope R_scope.

Lemma buildGrid_rows p rect old :
  buildGrid p (Some rect) old =
  flat_map (fun y => map (fun x => dotAt p rect x y)
                         (seq 0 (Z.to_nat (floor ((width rect + gap p) / (dotSize p + gap p))))))
           (seq 0 (Z.to_nat (floor ((height rect + gap p) / (dotSize p + gap p))))).
Proof. reflexivity. Qed.

(** Rows of one length, laid end to end. *)
Lemma nth_error_rows {X Y : Type} (f : X -> list Y) (n : nat) :
  (forall a, List.length (f a) = n) ->
  forall l row col, (col < n)%nat ->
    nth_error (flat_map f l) (row * n + col) =
    match nth_error l row with Some a => nth_error (f a) col | None => None end.
Proof.
  intros Hn l. induction l as [| a l IH]; intros row col Hc.
  - cbn [flat_map]. destruct row; destruct (_ + col)%nat; reflexivity.
  - destruct row as [| row]; cbn [flat_map nth_error].
    + cbn [Nat.mul Nat.add]. apply nth_error_app1. rewrite Hn. exact Hc.
    + rewrite nth_error_app2 by (rewrite Hn; lia).
      rewrite Hn. replace (Datatypes.S row * n + col - n)%nat with (row * n + col)%nat by lia.
      apply IH. exact Hc.
Qed.

(** A quotient of non-negative numbers has a non-negative floor, and the
    floor times the divisor does not pass the dividend. *)
Lemma floor_quotient (a c : R) :
  0 <= a -> 0 < c ->
  (0 <= floor (a / c))%Z /\ IZR (floor (a / c)) * c <= a.
Proof.
  intros Ha Hc. unfold floor.
  assert (Hq : 0 <= a / c) by (apply Rle_mult_inv_pos; assumption).
  split.
  - apply Zfloor_lub. exact Hq.
  - pose proof (Zfloor_bound (a / c)) as [Hlo _].
    replace a with (a / c * c) at 2 by (field; lra).
    apply Rmult_le_compat_r; lra.
Qed.

(** A loop counter below an integer bound. *)
Lemma counter_below (i : nat) (n : Z) :
  (i < Z.to_nat n)%nat -> 0 <= INR i /\ INR i + 1 <= IZR n.
Proof.
  intros Hi. split; [apply pos_INR |].
  rewrite INR_IZR_INZ, <- plus_IZR. apply IZR_le. lia.
Qed.

(** A centre of the lattice along one axis: [n] cells of pitch [d + g] in
    an extent [w], the [i]-th centre. *)
Lemma centre_inside (w d g : R) (n : Z) (i : nat) :
  0 <= d -> 0 <= g -> 0 < d + g ->
  IZR n * (d + g) <= w + g ->
  (i < Z.to_nat n)%nat ->
  let cell := d + g in
  let start := (w - (cell * IZR n - g)) / 2 + d / 2 in
  0 <= start + INR i * cell <= w.
Proof.
  intros Hd Hg Hc Hn Hi cell start. subst cell start.
  destruct (counter_below i n Hi) as [H0 H1].
  assert (Hic : 0 <= INR i * (d + g)) by (apply Rmult_le_pos; lra).
  assert (Hlast : INR i * (d + g) <= (IZR n - 1) * (d + g))
    by (apply Rmult_le_compat_r; lra).
  split; lra.
Qed.

(** The number of dots, whatever the sizes: the two loops run
    [Z.to_nat rows] and [Z.to_nat cols] times. *)
Lemma buildGrid_length p rect old :
  List.length (buildGrid p (Some rect) old) =
  (Z.to_nat (floor ((height rect + gap p) / (dotSize p + gap p)))
   * Z.to_nat (floor ((width rect + gap p) / (dotSize p + gap p))))%nat.
Proof.
  rewrite buildGrid_rows.
  rewrite flat_map_constant_length
    with (c := Z.to_nat (floor ((width rect + gap p) / (dotSize p + gap p)))).
  - rewrite length_seq. reflexivity.
  - intros row _. rewrite length_map, length_seq. reflexivity.
Qed.

(** [floor(326 / 28) = 11]. *)
Lemma floor_326_28 : floor ((300 + 26) / (2 + 26)) = 11%Z.
Proof. unfold floor. apply Zfloor_eq. lra. Qed.

(** C1.  For a container of width [W >= 0] and height [H >= 0], a dot
    diameter [d >= 0] and a gap [g >= 0] with a pitch [c = d + g > 0], a
    rebuild of the grid gives [floor((W+g)/c) * floor((H+g)/c)] dots, in
    row-major order (the dot of column [col] and row [row] is at index
    [row * cols + col]), each with its rest centre inside
    [[0,W] x [0,H]]; and with [d = 2], [g = 26], [W = H = 300] there are
    [11 * 11 = 121] dots. *)
Theorem buildGrid_count_order_bounds :
  (forall (p : Props) (rect : Rect) (old : list Dot),
      0 <= width rect -> 0 <= height rect ->
      0 <= dotSize p -> 0 <= gap p -> 0 < dotSize p + gap p ->
      let cols := floor ((width rect + gap p) / (dotSize p + gap p)) in
      let rows := floor ((height rect + gap p) / (dotSize p + gap p)) in
      let dots := buildGrid p (Some rect) old in
      Z.of_nat (List.length dots) = (cols * rows)%Z
      /\ (forall row col : nat,
            (Z.of_nat row < rows)%Z -> (Z.of_nat col < cols)%Z ->
            nth_error dots (row * Z.to_nat cols + col) = Some (dotAt p rect col row))
      /\ Forall (fun d => 0 <= cx d <= width rect /\ 0 <= cy d <= height rect) dots)
  /\ (forall (p : Props) (rect : Rect) (old : list Dot),
        dotSize p = 2 -> gap p = 26 -> width rect = 300 -> height rect = 300 ->
        List.length (buildGrid p (Some rect) old) = 121%nat).
Proof.
  split.
  - intros p rect old HW HH Hd Hg Hc cols rows dots.
    destruct (floor_quotient (width rect + gap p) (dotSize p + gap p))
      as [Hcols Hcw]; [lra | exact Hc |].
    destruct (floor_quotient (height rect + gap p) (dotSize p + gap p))
      as [Hrows Hrh]; [lra | exact Hc |].
    fold cols in Hcols, Hcw. fold rows in Hrows, Hrh.
    split; [| split].
    + subst dots. rewrite buildGrid_length. fold cols rows. lia.
    + intros row col Hrow Hcol. subst dots. rewrite buildGrid_rows. fold cols rows.
      rewrite nth_error_rows
        with (f := fun row => map (fun col => dotAt p rect col row) (seq 0 (Z.to_nat cols))).
      * rewrite nth_error_seq.
        destruct (Nat.ltb_spec row (Z.to_nat rows)) as [_ | Hge]; [| lia].
        cbn [Nat.add]. rewrite nth_error_map, nth_error_seq.
        destruct (Nat.ltb_spec col (Z.to_nat cols)) as [_ | Hge]; [| lia].
        reflexivity.
      * intros a. rewrite length_map, length_seq. reflexivity.
      * lia.
    + subst dots. rewrite buildGrid_rows. fold cols rows.
      apply Forall_forall. intros d Hin.
      apply in_flat_map in Hin. destruct Hin as (row & Hrow & Hin).
      apply in_map_iff in Hin. destruct Hin as (col & <- & Hcol).
      apply in_seq in Hrow. apply in_seq in Hcol.
      unfold dotAt. cbn [cx cy]. fold cols rows. split.
      * apply centre_inside; try assumption; lia.
      * apply centre_inside; try assumption; lia.
  - intros p rect old Hd Hg HW HH.
    rewrite buildGrid_length, Hd, Hg, HW, HH, floor_326_28. reflexivity.
Qed.

(** The grid of [App] in a container of 300 by 300. *)
Lemma buildGrid_count_order_bounds_witness :
  let rect := {| left := 0; top := 0; width := 300; height := 300 |} in
  Z.of_nat (List.length (buildGrid appProps (Some rect) [])) = (11 * 11)%Z
  /\ List.length (buildGrid appProps (Some rect) []) = 121%nat.
Proof.
  intros rect. split.
  - rewrite <- floor_326_28.
    refine (proj1 (proj1 buildGrid_count_order_bounds appProps rect [] _ _ _ _ _));
      cbn; lra.
  - apply (proj2 buildGrid_count_order_bounds appProps rect []); reflexivity.
Defined.

End GridFacts.

(** ** [DotGrid]: the pointer's velocity *)

Module PointerFacts.
Import JsMath DotGrid.
Local Open Scope R_scope.

Lemma hypot_nonneg a b : 0 <= hypot a b.
Proof. apply sqrt_pos. Qed.

(** Scaling both components by [k >= 0] scales the length by [k]. *)
Lemma hypot_scale a b k : 0 <= k -> hypot (a * k) (b * k) = hypot a b * k.
Proof.
  intros Hk. unfold hypot.
  replace (a * k * (a * k) + b * k * (b * k)) with ((a * a + b * b) * (k * k)) by ring.
  rewrite sqrt_mult; [| nra | nra].
  rewrite (sqrt_square k Hk). reflexivity.
Qed.

Lemma velocity_clamped p now e pr :
  rawSpeed now e pr > maxSpeed p ->
  velocity p now e pr =
  (rawVx now e pr * (maxSpeed p / rawSpeed now e pr),
   rawVy now e pr * (maxSpeed p / rawSpeed now e pr),
   maxSpeed p).
Proof.
  intros H. unfold velocity, gtb. fold (dtOf now pr).
  fold (rawVx now e pr) (rawVy now e pr). fold (rawSpeed now e pr).
  destruct (Rgt_dec (rawSpeed now e pr) (maxSpeed p)); [reflexivity | contradiction].
Qed.

Lemma velocity_free p now e pr :
  rawSpeed now e pr <= maxSpeed p ->
  velocity p now e pr = (rawVx now e pr, rawVy now e pr, rawSpeed now e pr).
Proof.
  intros H. unfold velocity, gtb. fold (dtOf now pr).
  fold (rawVx now e pr) (rawVy now e pr). fold (rawSpeed now e pr).
  destruct (Rgt_dec (rawSpeed now e pr) (maxSpeed p)); [lra | reflexivity].
Qed.

(** The fields [onMove] stores are the components of [velocity]. *)
Lemma movePointer_velocity p now e rect pr :
  velocity p now e pr =
  (vx (movePointer p now e rect pr), vy (movePointer p now e rect pr),
   speed (movePointer p now e rect pr)).
Proof.
  unfold movePointer. destruct (velocity p now e pr) as [[a b] c]. reflexivity.
Qed.

(** What [onMove] stores, by the two branches of the clamp. *)
Lemma stored_velocity p now e rect pr :
  0 < maxSpeed p ->
  let pr' := movePointer p now e rect pr in
  speed pr' <= maxSpeed p
  /\ speed pr' = hypot (vx pr') (vy pr')
  /\ (rawSpeed now e pr > maxSpeed p ->
      0 < maxSpeed p / rawSpeed now e pr
      /\ vx pr' = rawVx now e pr * (maxSpeed p / rawSpeed now e pr)
      /\ vy pr' = rawVy now e pr * (maxSpeed p / rawSpeed now e pr)
      /\ speed pr' = maxSpeed p)
  /\ (rawSpeed now e pr <= maxSpeed p ->
      vx pr' = rawVx now e pr /\ vy pr' = rawVy now e pr
      /\ speed pr' = rawSpeed now e pr).
Proof.
  intros Hmax pr'.
  pose proof (movePointer_velocity p now e rect pr) as Hv. fold pr' in Hv.
  destruct (Rle_or_gt (rawSpeed now e pr) (maxSpeed p)) as [Hle | Hgt].
  - rewrite (velocity_free _ _ _ _ Hle) in Hv. inversion Hv as [[Hx Hy Hs]].
    repeat split; try reflexivity; try lra.
  - rewrite (velocity_clamped _ _ _ _ Hgt) in Hv. inversion Hv as [[Hx Hy Hs]].
    assert (Hscale : 0 < maxSpeed p / rawSpeed now e pr)
      by (apply Rdiv_lt_0_compat; lra).
    repeat split; try reflexivity; try lra.
    rewrite hypot_scale by lra. fold (rawSpeed now e pr). field. lra.
Qed.

(** C3.  For every pointer-move sample with a non-zero time step, under a
    positive [maxSpeed]: the stored [speed] is the length of the stored
    [(vx, vy)] and does not exceed [maxSpeed]; when the raw speed exceeds
    [maxSpeed] the two raw components are multiplied by the same positive
    factor [maxSpeed / speed] (so the direction is kept) and the stored
    speed is [maxSpeed]; otherwise the raw values are stored as they
    are. *)
Theorem speed_clamped_direction_kept :
  forall (p : Props) (now : R) (e : MouseEvent) (rect : Rect) (pr : Pointer),
    0 < maxSpeed p ->
    dtOf now pr <> 0 ->
    let pr' := movePointer p now e rect pr in
    speed pr' <= maxSpeed p
    /\ speed pr' = hypot (vx pr') (vy pr')
    /\ (rawSpeed now e pr > maxSpeed p ->
        let scale := maxSpeed p / rawSpeed now e pr in
        0 < scale
        /\ vx pr' = rawVx now e pr * scale
        /\ vy pr' = rawVy now e pr * scale
        /\ speed pr' = maxSpeed p)
    /\ (rawSpeed now e pr <= maxSpeed p ->
        vx pr' = rawVx now e pr /\ vy pr' = rawVy now e pr
        /\ speed pr' = rawSpeed now e pr).
Proof.
  intros p now e rect pr Hmax _ pr'.
  exact (stored_velocity p now e rect pr Hmax).
Qed.

(** A pointer that moves 300 px to the right in 50 ms: 6000 px/s, clamped
    to the default 5000. *)
Lemma speed_clamped_direction_kept_witness :
  let pr := {| x := 0; y := 0; vx := 0; vy := 0; speed := 0;
               lastTime := 100; lastX := 10; lastY := 20 |} in
  let e := {| clientX := 310; clientY := 20 |} in
  let rect := {| left := 0; top := 0; width := 300; height := 300 |} in
  speed (movePointer defaultProps 150 e rect pr) <= 5000.
Proof.
  intros pr e rect.
  refine (proj1 (speed_clamped_direction_kept defaultProps 150 e rect pr _ _)).
  - cbn. lra.
  - unfold dtOf. cbn [lastTime pr].
    destruct (Req_dec_T 100 0); lra.
Defined.

(** C9.  On the first pointer move (the pointer state is the initial one,
    [lastTime = 0] and [(lastX, lastY) = (0, 0)]) at client position
    [(X, Y)], under a positive [maxSpeed]: the time step is 16 ms whatever
    [now] is, the stored speed is [min(maxSpeed, hypot(X, Y) / 16 * 1000)],
    and the stored [(vx, vy)] is a positive multiple of [(X, Y)] whose
    length is the stored speed. *)
Theorem first_move_velocity :
  forall (p : Props) (now : R) (e : MouseEvent) (rect : Rect),
    0 < maxSpeed p ->
    let pr' := movePointer p now e rect pointer0 in
    dtOf now pointer0 = 16
    /\ speed pr' = Rmin (maxSpeed p) (hypot (clientX e) (clientY e) / 16 * 1000)
    /\ speed pr' = hypot (vx pr') (vy pr')
    /\ exists k, 0 < k /\ vx pr' = k * clientX e /\ vy pr' = k * clientY e.
Proof.
  intros p now e rect Hmax pr'.
  assert (Hdt : dtOf now pointer0 = 16).
  { unfold dtOf. cbn [lastTime pointer0].
    destruct (Req_dec_T 0 0) as [_ | Hne]; [reflexivity | contradiction Hne; reflexivity]. }
  assert (Hvx : rawVx now e pointer0 = clientX e * (1000 / 16)).
  { unfold rawVx. rewrite Hdt. cbn [lastX pointer0]. field. }
  assert (Hvy : rawVy now e pointer0 = clientY e * (1000 / 16)).
  { unfold rawVy. rewrite Hdt. cbn [lastY pointer0]. field. }
  assert (Hraw : rawSpeed now e pointer0 = hypot (clientX e) (clientY e) / 16 * 1000).
  { unfold rawSpeed. rewrite Hvx, Hvy, hypot_scale by lra. field. }
  destruct (stored_velocity p now e rect pointer0 Hmax)
    as (Hle & Hlen & Hclamp & Hfree).
  fold pr' in Hle, Hlen, Hclamp, Hfree.
  split; [exact Hdt | split; [| split; [exact Hlen |]]].
  - rewrite <- Hraw.
    destruct (Rle_or_gt (rawSpeed now e pointer0) (maxSpeed p)) as [H | H].
    + destruct (Hfree H) as (_ & _ & ->). rewrite Rmin_right; [reflexivity | exact H].
    + destruct (Hclamp H) as (_ & _ & _ & ->). rewrite Rmin_left; [reflexivity | lra].
  - destruct (Rle_or_gt (rawSpeed now e pointer0) (maxSpeed p)) as [H | H].
    + destruct (Hfree H) as (-> & -> & _). exists (1000 / 16).
      rewrite Hvx, Hvy. repeat split; lra.
    + destruct (Hclamp H) as (Hs & -> & -> & _).
      exists (1000 / 16 * (maxSpeed p / rawSpeed now e pointer0)).
      rewrite Hvx, Hvy. repeat split; [| ring | ring].
      apply Rmult_lt_0_compat; [lra | exact Hs].
Qed.

(** A first sample at [(3, 4)]: 5 px over 16 ms, 312.5 px/s. *)
Lemma first_move_velocity_witness :
  let e := {| clientX := 3; clientY := 4 |} in
  let rect := {| left := 0; top := 0; width := 300; height := 300 |} in
  speed (movePointer defaultProps 123456 e rect pointer0)
  = Rmin 5000 (hypot 3 4 / 16 * 1000).
Proof.
  intros e rect.
  refine (proj1 (proj2 (first_move_velocity defaultProps 123456 e rect _))).
  cbn. lra.
Defined.

End PointerFacts.

(** ** [DotGrid]: the colour of a dot *)

Module DrawFacts.
Import JsMath DotGrid.
Local Open Scope R_scope.

Lemma round_IZR (z : Z) : round (IZR z) = z.
Proof. unfold round. apply Zfloor_eq. lra. Qed.

(** The test of line 113 compares the distance with [proximity]. *)
Lemma near_iff p px py d :
  0 <= proximity p ->
  ((cx d - px) * (cx d - px) + (cy d - py) * (cy d - py) <= proximity p * proximity p
   <-> distTo px py d <= proximity p).
Proof.
  intros Hp. unfold distTo, hypot.
  set (dsq := (cx d - px) * (cx d - px) + (cy d - py) * (cy d - py)).
  assert (Hd : 0 <= dsq).
  { pose proof (Rle_0_sqr (cx d - px)). pose proof (Rle_0_sqr (cy d - py)).
    unfold dsq, Rsqr in *. lra. }
  split; intros H.
  - rewrite <- (sqrt_square (proximity p) Hp). apply sqrt_le_1; [exact Hd | nra | exact H].
  - rewrite <- (sqrt_sqrt dsq Hd).
    pose proof (sqrt_pos dsq). apply Rmult_le_compat; assumption.
Qed.

Lemma style_near p px py d :
  0 <= proximity p -> distTo px py d <= proximity p ->
  style (drawDot p px py d) =
  let t := 1 - distTo px py d / proximity p in
  Rgb (mix (Color.r (baseRgb p)) (Color.r (activeRgb p)) t)
      (mix (Color.g (baseRgb p)) (Color.g (activeRgb p)) t)
      (mix (Color.b (baseRgb p)) (Color.b (activeRgb p)) t).
Proof.
  intros Hp H. apply near_iff in H; [| exact Hp].
  unfold drawDot, leb. cbn [style].
  destruct (Rle_dec _ _) as [_ | Hn]; [reflexivity | contradiction].
Qed.

Lemma style_far p px py d :
  0 <= proximity p -> distTo px py d > proximity p ->
  style (drawDot p px py d) = Named (baseColor p).
Proof.
  intros Hp H. unfold drawDot, leb. cbn [style].
  destruct (Rle_dec _ _) as [Hle | _]; [| reflexivity].
  apply near_iff in Hle; [lra | exact Hp].
Qed.

Lemma mix_0 base active : mix base active 0 = base.
Proof. unfold mix. rewrite Rmult_0_r, Rplus_0_r. apply round_IZR. Qed.

Lemma mix_1 base active : mix base active 1 = active.
Proof.
  unfold mix. replace (IZR base + (IZR active - IZR base) * 1) with (IZR active) by ring.
  apply round_IZR.
Qed.

(** C4.  Under a positive [proximity], for every dot and pointer
    position: a dot whose rest centre is at distance at most [proximity]
    from the pointer is filled with [rgb(r,g,b)], each channel the
    rounded interpolation of the base and active channels at
    [t = 1 - distance / proximity]; at distance [proximity] the channels
    are the base colour's, at distance 0 the active colour's; a dot
    farther than [proximity] is filled with the [baseColor] string. *)
Theorem fill_colour_interpolates :
  forall (p : Props) (pr : Pointer) (d : Dot),
    0 < proximity p ->
    let dist := distTo (x pr) (y pr) d in
    let fill := style (drawDot p (x pr) (y pr) d) in
    (dist <= proximity p ->
       fill = Rgb (round (IZR (Color.r (baseRgb p))
                          + (IZR (Color.r (activeRgb p)) - IZR (Color.r (baseRgb p)))
                            * (1 - dist / proximity p)))
                  (round (IZR (Color.g (baseRgb p))
                          + (IZR (Color.g (activeRgb p)) - IZR (Color.g (baseRgb p)))
                            * (1 - dist / proximity p)))
                  (round (IZR (Color.b (baseRgb p))
                          + (IZR (Color.b (activeRgb p)) - IZR (Color.b (baseRgb p)))
                            * (1 - dist / proximity p))))
    /\ (dist = proximity p ->
          fill = Rgb (Color.r (baseRgb p)) (Color.g (baseRgb p)) (Color.b (baseRgb p)))
    /\ (dist = 0 ->
          fill = Rgb (Color.r (activeRgb p)) (Color.g (activeRgb p)) (Color.b (activeRgb p)))
    /\ (dist > proximity p -> fill = Named (baseColor p)).
Proof.
  intros p pr d Hp dist fill. subst dist fill.
  assert (Hp0 : 0 <= proximity p) by lra.
  split; [| split; [| split]].
  - intros H. rewrite (style_near _ _ _ _ Hp0 H). reflexivity.
  - intros H. rewrite style_near; [| exact Hp0 | lra]. cbv zeta. rewrite H.
    replace (1 - proximity p / proximity p) with 0 by (field; lra).
    rewrite !mix_0. reflexivity.
  - intros H. rewrite style_near; [| exact Hp0 | lra]. cbv zeta. rewrite H.
    replace (1 - 0 / proximity p) with 1 by (field; lra).
    rewrite !mix_1. reflexivity.
  - intros H. apply style_far; assumption.
Qed.

(** With the props of [App] (proximity 90, base [#dcdcdc]): a dot 90 px to
    the right of the pointer is drawn in the base colour's channels. *)
Lemma fill_colour_interpolates_witness :
  let pr := {| x := 10; y := 20; vx := 0; vy := 0; speed := 0;
               lastTime := 0; lastX := 0; lastY := 0 |} in
  let d := {| cx := 100; cy := 20; xOffset := 0; yOffset := 0;
              _inertiaApplied := false |} in
  style (drawDot appProps (x pr) (y pr) d) = Rgb 220 220 220.
Proof.
  intros pr d.
  refine (proj1 (proj2 (fill_colour_interpolates appProps pr d _)) _).
  - cbn. lra.
  - unfold distTo, hypot. cbn.
    replace ((100 - 10) * (100 - 10) + (20 - 20) * (20 - 20)) with (90 * 90) by ring.
    apply sqrt_square. lra.
Defined.

End DrawFacts.

(** ** [DotGrid]: the displacement of a dot *)

Module DisplaceFacts.
Import JsMath DotGrid.
Local Open Scope R_scope.

Lemma run_snoc p evs ev st : run p (evs ++ [ev]) st = step p (run p evs st) ev.
Proof. unfold run. rewrite fold_left_app. reflexivity. Qed.

Lemma nth_error_update_nth {X : Type} (f : X -> X) (l : list X) : forall i j,
  nth_error (update_nth i f l) j =
  if Nat.eqb i j then option_map f (nth_error l j) else nth_error l j.
Proof.
  induction l as [| h l IH]; intros i j.
  - destruct i, j; cbn; try reflexivity. destruct (Nat.eqb i j); reflexivity.
  - destruct i, j; cbn [update_nth nth_error Nat.eqb option_map]; try reflexivity.
    apply IH.
Qed.

Lemma Forall_update_nth {X : Type} (P : X -> Prop) (f : X -> X) (l : list X) i :
  (forall a, P a -> P (f a)) -> Forall P l -> Forall P (update_nth i f l).
Proof.
  intros Hf H. revert i. induction H as [| h l Hh Hl IH]; intros i.
  - destruct i; constructor.
  - destruct i; cbn [update_nth]; constructor; auto.
Qed.

(** *** The guard *)

Lemma moveTriggers_flag p pr a :
  _inertiaApplied (dot a) = true -> moveTriggers p pr a = false.
Proof. intros H. unfold moveTriggers. rewrite H. apply andb_false_r. Qed.

Lemma clickTriggers_flag p clx cly a :
  _inertiaApplied (dot a) = true -> clickTriggers p clx cly a = false.
Proof. intros H. unfold clickTriggers. rewrite H. apply andb_false_r. Qed.

Lemma moveDot_flag p pr a : _inertiaApplied (dot a) = true -> moveDot p pr a = a.
Proof. intros H. unfold moveDot. rewrite moveTriggers_flag by exact H. reflexivity. Qed.

Lemma clickDot_flag p clx cly a :
  _inertiaApplied (dot a) = true -> clickDot p clx cly a = a.
Proof. intros H. unfold clickDot. rewrite clickTriggers_flag by exact H. reflexivity. Qed.

(** A launch: the flag is set and the new inertia tween is the dot's only
    tween, whatever tween was there. *)
Lemma moveDot_launch p pr a :
  moveTriggers p pr a = true ->
  _inertiaApplied (dot (moveDot p pr a)) = true
  /\ exists pushX pushY, tweens (moveDot p pr a) = [Inertia pushX pushY (resistance p)].
Proof.
  intros H. unfold moveDot. rewrite H. split; [reflexivity |].
  eexists _, _. reflexivity.
Qed.

Lemma clickDot_launch p clx cly a :
  clickTriggers p clx cly a = true ->
  _inertiaApplied (dot (clickDot p clx cly a)) = true
  /\ exists pushX pushY, tweens (clickDot p clx cly a) = [Inertia pushX pushY (resistance p)].
Proof.
  intros H. unfold clickDot. rewrite H. split; [reflexivity |].
  eexists _, _. reflexivity.
Qed.

(** *** The invariant *)

Lemma dotInv_moveDot p pr a : dotInv a -> dotInv (moveDot p pr a).
Proof.
  intros Ha. unfold moveDot. destruct (moveTriggers p pr a); [| exact Ha].
  split; cbn; [lia | reflexivity].
Qed.

Lemma dotInv_clickDot p clx cly a : dotInv a -> dotInv (clickDot p clx cly a).
Proof.
  intros Ha. unfold clickDot. destruct (clickTriggers p clx cly a); [| exact Ha].
  split; cbn; [lia | reflexivity].
Qed.

Lemma dotInv_tickDot xo yo a : dotInv a -> dotInv (tickDot xo yo a).
Proof.
  intros [Hlen Hflag]. unfold tickDot.
  destruct (tweens a) as [| tw tws] eqn:E; [split; [rewrite E; exact Hlen | exact Hflag] |].
  unfold dotInv, inInertia in *. cbn. rewrite E in *. split; [exact Hlen | exact Hflag].
Qed.

Lemma dotInv_completeTween p k a : dotInv a -> dotInv (completeTween p k a).
Proof.
  intros [Hlen Hflag]. unfold completeTween.
  destruct (nth_error (tweens a) k) as [tw |] eqn:E; [| split; assumption].
  destruct (tweens a) as [| tw0 [| tw1 tws]] eqn:Et.
  - destruct k; discriminate E.
  - destruct k as [| k]; [| destruct k; discriminate E].
    cbn in E. inversion E; subst tw0. unfold inInertia in Hflag. rewrite Et in Hflag.
    destruct tw; split; cbn; try lia; try reflexivity. exact Hflag.
  - cbn in Hlen. lia.
Qed.

Lemma dotInv_fresh d : _inertiaApplied d = false -> dotInv {| dot := d; tweens := [] |}.
Proof. intros H. split; cbn; [lia | exact H]. Qed.

Lemma buildGrid_fresh p rect old :
  Forall (fun d => _inertiaApplied d = false) (buildGrid p (Some rect) old).
Proof.
  apply Forall_forall. intros d Hin. cbn [buildGrid] in Hin.
  apply in_flat_map in Hin. destruct Hin as (row & _ & Hin).
  apply in_map_iff in Hin. destruct Hin as (col & <- & _). reflexivity.
Qed.

Lemma step_inv p st ev : Forall dotInv (dots st) -> Forall dotInv (dots (step p st ev)).
Proof.
  intros H. destruct ev as [wrap | now e rect | e rect | i xo yo | i k]; cbn [step].
  - destruct wrap as [rect |]; cbn [rebuild dots]; [| exact H].
    apply Forall_map. eapply Forall_impl; [| apply buildGrid_fresh].
    intros d Hd. apply dotInv_fresh. exact Hd.
  - cbn [onMove dots]. apply Forall_map. eapply Forall_impl; [| exact H].
    intros a. apply dotInv_moveDot.
  - cbn [onClick dots]. apply Forall_map. eapply Forall_impl; [| exact H].
    intros a. apply dotInv_clickDot.
  - cbn [dots]. apply Forall_update_nth; [| exact H]. intros a. apply dotInv_tickDot.
  - cbn [dots]. apply Forall_update_nth; [| exact H]. intros a. apply dotInv_completeTween.
Qed.

Lemma run_inv p evs : Forall dotInv (dots (run p evs state0)).
Proof.
  induction evs as [| ev evs IH] using rev_ind; [constructor |].
  rewrite run_snoc. apply step_inv. exact IH.
Qed.

(** A pointer event leaves a flagged dot as it is. *)
Lemma step_pointer_flag p st ev i a :
  isPointerEvent ev = true ->
  nth_error (dots st) i = Some a ->
  _inertiaApplied (dot a) = true ->
  nth_error (dots (step p st ev)) i = Some a.
Proof.
  intros Hev Hi Hflag.
  destruct ev as [wrap | now e rect | e rect | j xo yo | j k]; try discriminate Hev;
    cbn [step onMove onClick dots]; rewrite nth_error_map, Hi; cbn [option_map]; f_equal.
  - apply moveDot_flag. exact Hflag.
  - apply clickDot_flag. exact Hflag.
Qed.

Lemma inInertia_iff a :
  inInertia a = true <-> exists pushX pushY res, tweens a = [Inertia pushX pushY res].
Proof.
  unfold inInertia. split.
  - destruct (tweens a) as [| [px py res | dur] [| tw tws]]; try discriminate.
    intros _. exists px, py, res. reflexivity.
  - intros (px & py & res & ->). reflexivity.
Qed.

(** The end of the inertia tween of a flagged dot: the return tween
    starts and the flag is cleared. *)
Lemma complete_inertia p a :
  dotInv a -> _inertiaApplied (dot a) = true ->
  _inertiaApplied (dot (completeTween p 0 a)) = false
  /\ tweens (completeTween p 0 a) = [Return (returnDuration p)].
Proof.
  intros [_ Hflag] H. rewrite H in Hflag. symmetry in Hflag.
  apply inInertia_iff in Hflag. destruct Hflag as (px & py & res & Ht).
  unfold completeTween. rewrite Ht. cbn. split; reflexivity.
Qed.

(** The end of the return tween: the dot is at rest. *)
Lemma complete_return p a dur :
  dotInv a -> tweens a = [Return dur] ->
  tweens (completeTween p 0 a) = []
  /\ xOffset (dot (completeTween p 0 a)) = 0
  /\ yOffset (dot (completeTween p 0 a)) = 0
  /\ _inertiaApplied (dot (completeTween p 0 a)) = false.
Proof.
  intros [_ Hflag] Ht. unfold inInertia in Hflag. rewrite Ht in Hflag.
  unfold completeTween. rewrite Ht. cbn. repeat split. exact Hflag.
Qed.

(** A click near a dot whose return tween is live launches a new
    displacement, and the return tween is gone. *)
Lemma click_during_return p a dur clx cly :
  dotInv a -> tweens a = [Return dur] ->
  hypot (cx (dot a) - clx) (cy (dot a) - cly) < shockRadius p ->
  _inertiaApplied (dot (clickDot p clx cly a)) = true
  /\ exists pushX pushY, tweens (clickDot p clx cly a) = [Inertia pushX pushY (resistance p)].
Proof.
  intros [_ Hflag] Ht Hd. unfold inInertia in Hflag. rewrite Ht in Hflag.
  apply clickDot_launch. unfold clickTriggers, ltb. rewrite Hflag.
  destruct (Rlt_dec _ _); [reflexivity | contradiction].
Qed.

(** So does a fast pointer move near the dot. *)
Lemma move_during_return p a dur pr :
  dotInv a -> tweens a = [Return dur] ->
  speed pr > speedTrigger p ->
  hypot (cx (dot a) - x pr) (cy (dot a) - y pr) < proximity p ->
  _inertiaApplied (dot (moveDot p pr a)) = true
  /\ exists pushX pushY, tweens (moveDot p pr a) = [Inertia pushX pushY (resistance p)].
Proof.
  intros [_ Hflag] Ht Hs Hd. unfold inInertia in Hflag. rewrite Ht in Hflag.
  apply moveDot_launch. unfold moveTriggers, gtb, ltb. rewrite Hflag.
  destruct (Rgt_dec _ _); [| contradiction].
  destruct (Rlt_dec _ _); [reflexivity | contradiction].
Qed.

(** *** A run of the component with one dot *)

(** With the default sizes a container of 16 by 16 holds one dot, [dot88]. *)
Lemma grid16 : buildGrid defaultProps (Some rect16) [] = [dot88].
Proof.
  assert (Hf : floor ((16 + 32) / (16 + 32)) = 1%Z)
    by (unfold floor; apply Zfloor_eq; lra).
  rewrite GridFacts.buildGrid_rows. unfold dotAt.
  cbn [width height rect16 gap dotSize defaultProps]. rewrite !Hf.
  change (Z.to_nat 1) with 1%nat. cbn [seq flat_map map app INR].
  unfold dot88. f_equal. f_equal; lra.
Qed.

Lemma hypot_click5 : hypot (8 - (11 - 0)) (8 - (12 - 0)) = 5.
Proof.
  unfold hypot.
  replace ((8 - (11 - 0)) * (8 - (11 - 0)) + (8 - (12 - 0)) * (8 - (12 - 0)))
    with (5 * 5) by ring.
  apply sqrt_square. lra.
Qed.

Lemma clicked_eq :
  exists pushX pushY,
    clicked = {| dot := {| cx := 8; cy := 8; xOffset := 0; yOffset := 0;
                           _inertiaApplied := true |};
                 tweens := [Inertia pushX pushY 750] |}.
Proof.
  unfold clicked, clickDot.
  replace (clickTriggers defaultProps (11 - 0) (12 - 0) {| dot := dot88; tweens := [] |})
    with true.
  - eexists _, _. reflexivity.
  - unfold clickTriggers, ltb. cbn [dot dot88 cx cy _inertiaApplied shockRadius defaultProps].
    rewrite hypot_click5. destruct (Rlt_dec 5 250); [reflexivity | lra].
Qed.

Lemma returning_eq :
  returning = {| dot := {| cx := 8; cy := 8; xOffset := 0; yOffset := 0;
                           _inertiaApplied := false |};
                 tweens := [Return (15 / 10)] |}.
Proof.
  unfold returning. destruct clicked_eq as (px & py & ->). reflexivity.
Qed.

Lemma run_clicked :
  dots (run defaultProps [Resize (Some rect16); Click click5 rect16] state0) = [clicked].
Proof.
  cbn [run fold_left step rebuild onClick dots state0 map]. rewrite grid16. reflexivity.
Qed.

Lemma run_returning :
  dots (run defaultProps
          [Resize (Some rect16); Click click5 rect16; Complete 0 0] state0)
  = [returning].
Proof.
  change [Resize (Some rect16); Click click5 rect16; Complete 0 0]
    with ([Resize (Some rect16); Click click5 rect16] ++ [Complete 0 0]).
  rewrite run_snoc. cbn [step dots]. rewrite run_clicked. reflexivity.
Qed.

(** The worded claim fails: build the one-dot grid, click 5 px from the
    dot, let the inertia tween end (the return tween is now live and the
    flag clear), click there again: the second click sets the flag and
    replaces the return tween by a new inertia tween. *)
Lemma retrigger_during_return : ~ NoRetriggerUntilSettled defaultProps.
Proof.
  intros H.
  specialize (H [Resize (Some rect16); Click click5 rect16; Complete 0 0]
                (Click click5 rect16) 0%nat returning
                (clickDot defaultProps (11 - 0) (12 - 0) returning)).
  rewrite run_returning in H.
  assert (Hr : clickDot defaultProps (11 - 0) (12 - 0) returning = returning).
  { apply H.
    - reflexivity.
    - rewrite returning_eq. reflexivity.
    - reflexivity.
    - cbn [step onClick dots].
      replace (dots (run defaultProps
                 [Resize (Some rect16); Click click5 rect16; Complete 0 0] state0))
        with [returning] by (symmetry; apply run_returning).
      reflexivity. }
  assert (Hflag : _inertiaApplied (dot (clickDot defaultProps (11 - 0) (12 - 0) returning)) = true).
  { apply (click_during_return defaultProps returning (15 / 10)).
    - rewrite returning_eq. split; cbn; [lia | reflexivity].
    - rewrite returning_eq. reflexivity.
    - rewrite returning_eq. cbn [dot cx cy shockRadius defaultProps].
      rewrite hypot_click5. lra. }
  rewrite Hr, returning_eq in Hflag. discriminate Hflag.
Qed.

(** C2, amended.  For every dot of every state the component reaches by a
    sequence of rebuilds, pointer moves, clicks, ticks and tween ends: the
    dot has at most one live tween, and its flag is set exactly while
    that tween is an inertial impulse.  While the flag is set no pointer
    move and no click changes the dot.  The end of the inertial impulse
    clears the flag at the moment it starts the elastic return; the end of
    the return leaves the offset at (0, 0).  During the return the flag is
    clear, and a click within the shock radius, or a pointer move faster
    than the trigger within the proximity radius, launches a new
    displacement, which replaces the return tween. *)
Theorem displaced_until_impulse_ends :
  forall (p : Props) (evs : list Event) (i : nat) (a : Animated),
    nth_error (dots (run p evs state0)) i = Some a ->
    (List.length (tweens a) <= 1)%nat
    /\ (_inertiaApplied (dot a) = true <->
        exists pushX pushY res, tweens a = [Inertia pushX pushY res])
    /\ (_inertiaApplied (dot a) = true ->
        forall ev, isPointerEvent ev = true ->
                   nth_error (dots (step p (run p evs state0) ev)) i = Some a)
    /\ (_inertiaApplied (dot a) = true ->
        _inertiaApplied (dot (completeTween p 0 a)) = false
        /\ tweens (completeTween p 0 a) = [Return (returnDuration p)])
    /\ (forall dur, tweens a = [Return dur] ->
        _inertiaApplied (dot a) = false
        /\ tweens (completeTween p 0 a) = []
        /\ xOffset (dot (completeTween p 0 a)) = 0
        /\ yOffset (dot (completeTween p 0 a)) = 0
        /\ (forall clx cly,
             hypot (cx (dot a) - clx) (cy (dot a) - cly) < shockRadius p ->
             _inertiaApplied (dot (clickDot p clx cly a)) = true
             /\ exists pushX pushY,
                  tweens (clickDot p clx cly a) = [Inertia pushX pushY (resistance p)])
        /\ (forall pr,
             speed pr > speedTrigger p ->
             hypot (cx (dot a) - x pr) (cy (dot a) - y pr) < proximity p ->
             _inertiaApplied (dot (moveDot p pr a)) = true
             /\ exists pushX pushY,
                  tweens (moveDot p pr a) = [Inertia pushX pushY (resistance p)])).
Proof.
  intros p evs i a Hi.
  assert (Ha : dotInv a).
  { pose proof (run_inv p evs) as Hall. rewrite Forall_forall in Hall.
    apply Hall. eapply nth_error_In. exact Hi. }
  split; [exact (proj1 Ha) |].
  split; [destruct Ha as [_ ->]; apply inInertia_iff |].
  split; [intros Hflag ev Hev; apply step_pointer_flag; assumption |].
  split; [intros Hflag; apply complete_inertia; assumption |].
  intros dur Ht.
  destruct (complete_return p a dur Ha Ht) as (H1 & H2 & H3 & _).
  split; [| split; [exact H1 | split; [exact H2 | split; [exact H3 | split]]]].
  - destruct Ha as [_ ->]. unfold inInertia. rewrite Ht. reflexivity.
  - intros clx cly Hd. apply (click_during_return p a dur); assumption.
  - intros pr Hs Hd. apply (move_during_return p a dur); assumption.
Qed.

(** The one dot of the 16 by 16 grid, once clicked: its flag is set and a
    second click leaves it as it is. *)
Lemma displaced_until_impulse_ends_witness :
  nth_error (dots (step defaultProps
                     (run defaultProps [Resize (Some rect16); Click click5 rect16] state0)
                     (Click click5 rect16))) 0
  = Some clicked.
Proof.
  refine (proj1 (proj2 (proj2
            (displaced_until_impulse_ends defaultProps
               [Resize (Some rect16); Click click5 rect16] 0 clicked _))) _ _ _).
  - rewrite run_clicked. reflexivity.
  - destruct clicked_eq as (px & py & ->). reflexivity.
  - reflexivity.
Defined.

End DisplaceFacts.

(** ** [ClickSpark] *)

Module SparkFacts.
Import ClickSpark.
Local Open Scope R_scope.

(** *** Bursts *)

Lemma newSparks_length p now e : List.length (newSparks p now e) = sparkCount p.
Proof. unfold newSparks. rewrite length_map, length_seq. reflexivity. Qed.

Lemma newSparks_nth p now e i :
  (i < sparkCount p)%nat ->
  nth_error (newSparks p now e) i =
  Some {| x := clientX e; y := clientY e;
          angle := (2 * PI * INR i) / INR (sparkCount p);
          startTime := now |}.
Proof.
  intros Hi. unfold newSparks. rewrite nth_error_map, nth_error_seq.
  destruct (Nat.ltb_spec i (sparkCount p)) as [_ | Hge]; [reflexivity | lia].
Qed.

(** The eight angles of a burst of eight. *)
Lemma angles_of_eight p now e :
  sparkCount p = 8%nat ->
  map angle (newSparks p now e) =
  [0; PI / 4; PI / 2; 3 * PI / 4; PI; 5 * PI / 4; 3 * PI / 2; 7 * PI / 4].
Proof.
  intros H. unfold newSparks. rewrite H. cbn [seq map angle INR].
  repeat (apply f_equal2; [field |]). reflexivity.
Qed.

(** C5.  Every click appends [sparkCount] sparks to the collection, after
    the ones that were there: the [i]-th of them, for [i] in
    [[0, sparkCount)], has the click's [(x, y)], the click's time stamp
    and the angle [2 pi i / sparkCount]; with [sparkCount = 8] the angles
    are [0, pi/4, pi/2, ..., 7pi/4]. *)
Theorem click_appends_burst :
  forall (p : Props) (now : R) (e : MouseEvent) (sparks : list Spark),
    let sparks' := handleClick p now e sparks in
    List.length sparks' = (List.length sparks + sparkCount p)%nat
    /\ firstn (List.length sparks) sparks' = sparks
    /\ (forall i : nat,
          (i < sparkCount p)%nat ->
          nth_error sparks' (List.length sparks + i) =
          Some {| x := clientX e; y := clientY e;
                  angle := (2 * PI * INR i) / INR (sparkCount p);
                  startTime := now |})
    /\ (sparkCount p = 8%nat ->
        map angle (skipn (List.length sparks) sparks') =
        [0; PI / 4; PI / 2; 3 * PI / 4; PI; 5 * PI / 4; 3 * PI / 2; 7 * PI / 4]).
Proof.
  intros p now e sparks sparks'. subst sparks'. unfold handleClick.
  split; [| split; [| split]].
  - rewrite length_app, newSparks_length. reflexivity.
  - rewrite firstn_app, Nat.sub_diag, firstn_all. cbn [firstn]. apply app_nil_r.
  - intros i Hi. rewrite nth_error_app2 by lia.
    replace (List.length sparks + i - List.length sparks)%nat with i by lia.
    apply newSparks_nth. exact Hi.
  - intros H. rewrite skipn_app, Nat.sub_diag, skipn_all. cbn [skipn app].
    apply angles_of_eight. exact H.
Qed.

(** A click of [App]'s spark layer (eight sparks) on an empty
    collection. *)
Lemma click_appends_burst_witness :
  let e := {| clientX := 40; clientY := 30 |} in
  map angle (skipn 0 (handleClick appProps 1000 e [])) =
  [0; PI / 4; PI / 2; 3 * PI / 4; PI; 5 * PI / 4; 3 * PI / 2; 7 * PI / 4].
Proof.
  intros e.
  refine (proj2 (proj2 (proj2 (click_appends_burst appProps 1000 e []))) _).
  reflexivity.
Defined.

(** *** Expiry *)

Lemma expired_iff p timestamp spark :
  expired p timestamp spark = true <-> timestamp - startTime spark >= duration p.
Proof.
  unfold expired. destruct (Rge_dec _ _); split; intros H;
    try assumption; try reflexivity; try discriminate; contradiction.
Qed.

Lemma draw_live p timestamp sparks :
  fst (draw p timestamp sparks) =
  filter (fun spark => negb (expired p timestamp spark)) sparks.
Proof. reflexivity. Qed.

(** Frames only remove sparks. *)
Lemma frames_incl p timestamps : forall sparks s,
  In s (frames p timestamps sparks) -> In s sparks.
Proof.
  induction timestamps as [| t ts IH]; intros sparks s H; [exact H |].
  unfold frames in *. cbn [fold_left] in H. apply IH in H.
  rewrite draw_live in H. apply filter_In in H. apply H.
Qed.

Lemma frames_snoc p timestamps t sparks :
  frames p (timestamps ++ [t]) sparks = fst (draw p t (frames p timestamps sparks)).
Proof. unfold frames. rewrite fold_left_app. reflexivity. Qed.

Lemma all_expired p timestamp sparks :
  (forall s, In s sparks -> timestamp - startTime s >= duration p) ->
  fst (draw p timestamp sparks) = [].
Proof.
  intros H. rewrite draw_live. induction sparks as [| s sparks IH]; [reflexivity |].
  cbn [filter]. replace (expired p timestamp s) with true.
  - cbn [negb]. apply IH. intros s' Hs'. apply H. right. exact Hs'.
  - symmetry. apply expired_iff. apply H. left. reflexivity.
Qed.

(** C6.  A frame keeps a spark exactly when its age, the frame's time
    stamp minus [startTime], is below [duration], and removes it when the
    age is at least [duration]; it strokes one line for each spark kept.
    Hence after a frame whose time stamp exceeds every spark's
    [startTime + duration], with frames only before it, the collection is
    empty; and a burst is gone at the frame [duration] after its click. *)
Theorem frame_expires_sparks :
  forall (p : Props) (timestamp : R) (sparks : list Spark),
    fst (draw p timestamp sparks) =
      filter (fun s => if Rge_dec (timestamp - startTime s) (duration p)
                       then false else true) sparks
    /\ (forall s, In s (fst (draw p timestamp sparks)) <->
                  In s sparks /\ timestamp - startTime s < duration p)
    /\ List.length (snd (draw p timestamp sparks))
       = List.length (fst (draw p timestamp sparks))
    /\ (forall earlier : list R,
          (forall s, In s sparks -> timestamp > startTime s + duration p) ->
          frames p (earlier ++ [timestamp]) sparks = [])
    /\ (forall now e, fst (draw p (now + duration p) (newSparks p now e)) = []).
Proof.
  intros p timestamp sparks. split; [| split; [| split; [| split]]].
  - rewrite draw_live. apply filter_ext. intros s. unfold expired.
    destruct (Rge_dec _ _); reflexivity.
  - intros s. rewrite draw_live, filter_In. split; intros [Hin H]; split; try exact Hin.
    + destruct (expired p timestamp s) eqn:E; [discriminate H |].
      destruct (Rlt_or_le (timestamp - startTime s) (duration p)) as [Hlt | Hle];
        [exact Hlt |].
      assert (Ht : expired p timestamp s = true) by (apply expired_iff; lra).
      congruence.
    + destruct (expired p timestamp s) eqn:E; [| reflexivity].
      apply expired_iff in E. lra.
  - unfold draw. cbn [fst snd]. apply length_map.
  - intros earlier H. rewrite frames_snoc. apply all_expired.
    intros s Hs. apply frames_incl in Hs. specialize (H s Hs). lra.
  - intros now e. apply all_expired. intros s Hs.
    unfold newSparks in Hs. apply in_map_iff in Hs. destruct Hs as (i & <- & _).
    cbn [startTime]. lra.
Qed.

(** A burst of eight clicked at 1000 ms: a frame at 1200 ms then one at
    1401 ms leave nothing. *)
Lemma frame_expires_sparks_witness :
  let e := {| clientX := 40; clientY := 30 |} in
  frames appProps ([1200] ++ [1401]) (newSparks appProps 1000 e) = [].
Proof.
  intros e.
  refine (proj1 (proj2 (proj2 (proj2
            (frame_expires_sparks appProps 1401 (newSparks appProps 1000 e)))))
            [1200] _).
  intros s Hs. unfold newSparks in Hs. apply in_map_iff in Hs.
  destruct Hs as (i & <- & _). cbn. lra.
Defined.

(** *** Easing *)

Lemma easeFunc_cases p t :
  (easing p = "linear"%string /\ easeFunc p t = t)
  \/ (easing p = "ease-in"%string /\ easeFunc p t = t * t)
  \/ (easing p = "ease-in-out"%string
      /\ ((t < 5 / 10 /\ easeFunc p t = 2 * t * t)
          \/ (5 / 10 <= t /\ easeFunc p t = -1 + (4 - 2 * t) * t)))
  \/ (easing p <> "linear"%string /\ easing p <> "ease-in"%string
      /\ easing p <> "ease-in-out"%string /\ easeFunc p t = t * (2 - t)).
Proof.
  unfold easeFunc.
  destruct (String.eqb_spec (easing p) "linear") as [E1 | E1]; [left; auto |].
  destruct (String.eqb_spec (easing p) "ease-in") as [E2 | E2]; [right; left; auto |].
  destruct (String.eqb_spec (easing p) "ease-in-out") as [E3 | E3].
  - right; right; left. split; [exact E3 |].
    destruct (Rlt_dec t (5 / 10)); [left | right]; split; try reflexivity; lra.
  - right; right; right. auto.
Qed.

Lemma easeFunc_0 p : easeFunc p 0 = 0.
Proof.
  destruct (easeFunc_cases p 0) as [[_ ->] | [[_ ->] | [[_ [[_ ->] | [H _]]] | (_ & _ & _ & ->)]]];
    lra.
Qed.

Lemma easeFunc_1 p : easeFunc p 1 = 1.
Proof.
  destruct (easeFunc_cases p 1) as [[_ ->] | [[_ ->] | [[_ [[H _] | [_ ->]]] | (_ & _ & _ & ->)]]];
    lra.
Qed.

(** Every mode is monotone on [[0, 1]]. *)
Lemma easeFunc_monotone p t1 t2 :
  0 <= t1 -> t1 <= t2 -> t2 <= 1 -> easeFunc p t1 <= easeFunc p t2.
Proof.
  intros H0 H12 H1.
  destruct (easeFunc_cases p t1) as [[E ->] | [[E ->] | [[E [[Ha ->] | [Ha ->]]] | (N1 & N2 & N3 & ->)]]];
  destruct (easeFunc_cases p t2) as [[F ->] | [[F ->] | [[F [[Hb ->] | [Hb ->]]] | (M1 & M2 & M3 & ->)]]];
    try congruence; try nra.
Qed.

Lemma easeFunc_unit p t : 0 <= t <= 1 -> 0 <= easeFunc p t <= 1.
Proof.
  intros [H0 H1].
  pose proof (easeFunc_monotone p 0 t (Rle_refl 0) H0 H1) as Hlo.
  pose proof (easeFunc_monotone p t 1 H0 H1 (Rle_refl 1)) as Hhi.
  rewrite easeFunc_0 in Hlo. rewrite easeFunc_1 in Hhi. split; assumption.
Qed.

(** The progress of a spark grows with the frame's time stamp and stays
    in [[0, 1]] up to [duration]. *)
Lemma progress_monotone p spark ts1 ts2 :
  0 < duration p ->
  startTime spark <= ts1 -> ts1 <= ts2 -> ts2 <= startTime spark + duration p ->
  0 <= (ts1 - startTime spark) / duration p
  /\ (ts1 - startTime spark) / duration p <= (ts2 - startTime spark) / duration p
  /\ (ts2 - startTime spark) / duration p <= 1.
Proof.
  intros Hd H0 H12 H2.
  assert (Hi : 0 < / duration p) by (apply Rinv_0_lt_compat; exact Hd).
  unfold Rdiv. repeat split.
  - apply Rmult_le_pos; lra.
  - apply Rmult_le_compat_r; lra.
  - replace 1 with (duration p * / duration p) by (field; lra).
    apply Rmult_le_compat_r; lra.
Qed.

(** The stroke runs from the near point along the spark's angle, over
    [lineLength]. *)
Lemma sparkLine_span p ts spark :
  x2 (sparkLine p ts spark) - x1 (sparkLine p ts spark)
    = lineLength p ts spark * cos (angle spark)
  /\ y2 (sparkLine p ts spark) - y1 (sparkLine p ts spark)
    = lineLength p ts spark * sin (angle spark).
Proof. unfold sparkLine. cbn [x1 x2 y1 y2]. split; ring. Qed.

Lemma sparkLine_length p ts spark :
  JsMath.hypot (x2 (sparkLine p ts spark) - x1 (sparkLine p ts spark))
               (y2 (sparkLine p ts spark) - y1 (sparkLine p ts spark))
  = Rabs (lineLength p ts spark).
Proof.
  destruct (sparkLine_span p ts spark) as [-> ->]. unfold JsMath.hypot.
  set (l := lineLength p ts spark). set (a := angle spark).
  replace (l * cos a * (l * cos a) + l * sin a * (l * sin a))
    with (Rsqr l * (Rsqr (sin a) + Rsqr (cos a))) by (unfold Rsqr; ring).
  rewrite sin2_cos2, Rmult_1_r. apply sqrt_Rsqr_abs.
Qed.

(** Every mode grows strictly on [[0, 1]]. *)
Lemma easeFunc_strict p t1 t2 :
  0 <= t1 -> t1 < t2 -> t2 <= 1 -> easeFunc p t1 < easeFunc p t2.
Proof.
  intros H0 H12 H1.
  destruct (easeFunc_cases p t1) as [[E ->] | [[E ->] | [[E [[Ha ->] | [Ha ->]]] | (N1 & N2 & N3 & ->)]]];
  destruct (easeFunc_cases p t2) as [[F ->] | [[F ->] | [[F [[Hb ->] | [Hb ->]]] | (M1 & M2 & M3 & ->)]]];
    try congruence; try nra.
Qed.

(** How far a mode is from 1, against how far [t] is. *)
Lemma easeFunc_gap p t : 0 <= t <= 1 -> 1 - easeFunc p t <= 2 * (1 - t).
Proof.
  intros [H0 H1].
  destruct (easeFunc_cases p t) as [[E ->] | [[E ->] | [[E [[Ha ->] | [Ha ->]]] | (N1 & N2 & N3 & ->)]]];
    nra.
Qed.

(** A frame at the fraction [t] of a spark's life. *)
Lemma progress_at p spark t :
  0 < duration p ->
  (startTime spark + t * duration p - startTime spark) / duration p = t.
Proof. intros Hd. field. lra. Qed.

(** C10.  Whatever the [easing] string, [easeFunc(0) = 0] and
    [easeFunc(1) = 1]: ['linear'] is [t], ['ease-in'] is [t * t],
    ['ease-in-out'] is [2 t t] below one half and [-1 + (4 - 2 t) t] from
    there, and anything else is the ease-out [t (2 - t)].  Hence, for a
    positive [duration], a spark of age 0 is kept, its near point is its
    click origin (radial distance 0) and its line has length
    [sparkSize].  The line's length is [|sparkSize * (1 - eased)|]: it is
    0 where [eased] is 1 and, for a non-negative [sparkSize], never grows
    from one frame to a later one over the life of the spark.  At every
    frame [eased] is [easeFunc(elapsed / duration)], and the two ends of
    the stroke are at [eased * sparkRadius * extraScale] and that plus
    [sparkSize * (1 - eased)] along the spark's angle.  For a positive
    [sparkSize] the line is strictly shorter at every later frame of the
    spark's life; its length would be 0 at the age [duration], and it
    comes below any positive length at some frame at which the spark is
    still drawn. *)
Theorem ease_endpoints_and_spark_line :
  forall p : Props,
    easeFunc p 0 = 0 /\ easeFunc p 1 = 1
    /\ (forall t,
          (easing p = "linear"%string -> easeFunc p t = t)
          /\ (easing p = "ease-in"%string -> easeFunc p t = t * t)
          /\ (easing p = "ease-in-out"%string ->
              (t < 5 / 10 -> easeFunc p t = 2 * t * t)
              /\ (5 / 10 <= t -> easeFunc p t = -1 + (4 - 2 * t) * t))
          /\ (easing p <> "linear"%string -> easing p <> "ease-in"%string ->
              easing p <> "ease-in-out"%string -> easeFunc p t = t * (2 - t)))
    /\ (forall spark,
          0 < duration p ->
          let born := startTime spark in
          expired p born spark = false
          /\ distance p born spark = 0
          /\ x1 (sparkLine p born spark) = x spark
          /\ y1 (sparkLine p born spark) = y spark
          /\ lineLength p born spark = sparkSize p)
    /\ (forall ts spark,
          lineLength p ts spark = sparkSize p * (1 - eased p ts spark)
          /\ JsMath.hypot (x2 (sparkLine p ts spark) - x1 (sparkLine p ts spark))
                          (y2 (sparkLine p ts spark) - y1 (sparkLine p ts spark))
             = Rabs (lineLength p ts spark)
          /\ (eased p ts spark = 1 -> lineLength p ts spark = 0))
    /\ (forall ts1 ts2 spark,
          0 <= sparkSize p -> 0 < duration p ->
          startTime spark <= ts1 -> ts1 <= ts2 -> ts2 <= startTime spark + duration p ->
          0 <= lineLength p ts2 spark
          /\ lineLength p ts2 spark <= lineLength p ts1 spark
          /\ lineLength p ts1 spark <= sparkSize p)
    /\ (forall ts spark,
          let progress := (ts - startTime spark) / duration p in
          eased p ts spark = easeFunc p progress
          /\ distance p ts spark = easeFunc p progress * sparkRadius p * extraScale p
          /\ lineLength p ts spark = sparkSize p * (1 - easeFunc p progress)
          /\ x1 (sparkLine p ts spark)
             = x spark + easeFunc p progress * sparkRadius p * extraScale p
                         * cos (angle spark)
          /\ y1 (sparkLine p ts spark)
             = y spark + easeFunc p progress * sparkRadius p * extraScale p
                         * sin (angle spark)
          /\ x2 (sparkLine p ts spark)
             = x spark + (easeFunc p progress * sparkRadius p * extraScale p
                          + sparkSize p * (1 - easeFunc p progress))
                         * cos (angle spark)
          /\ y2 (sparkLine p ts spark)
             = y spark + (easeFunc p progress * sparkRadius p * extraScale p
                          + sparkSize p * (1 - easeFunc p progress))
                         * sin (angle spark))
    /\ (forall ts1 ts2 spark,
          0 < sparkSize p -> 0 < duration p ->
          startTime spark <= ts1 -> ts1 < ts2 -> ts2 <= startTime spark + duration p ->
          lineLength p ts2 spark < lineLength p ts1 spark)
    /\ (forall spark,
          0 < duration p ->
          lineLength p (startTime spark + duration p) spark = 0
          /\ (0 <= sparkSize p ->
              forall eps, 0 < eps ->
                exists ts,
                  startTime spark <= ts < startTime spark + duration p
                  /\ expired p ts spark = false
                  /\ 0 <= lineLength p ts spark < eps)).
Proof.
  intros p.
  split; [apply easeFunc_0 | split; [apply easeFunc_1 |]].
  split; [| split; [| split; [| split; [| split; [| split]]]]].
  - intros t.
    destruct (easeFunc_cases p t)
      as [[E ->] | [[E ->] | [[E [[Ha ->] | [Ha ->]]] | (N1 & N2 & N3 & ->)]]];
      repeat split; intros; try reflexivity; try congruence; try lra.
  - intros spark Hd born. subst born.
    assert (He : eased p (startTime spark) spark = 0).
    { unfold eased. replace ((startTime spark - startTime spark) / duration p) with 0
        by (field; lra). apply easeFunc_0. }
    repeat split.
    + unfold expired. destruct (Rge_dec _ _); [lra | reflexivity].
    + unfold distance. rewrite He. ring.
    + unfold sparkLine, distance. cbn [x1]. rewrite He. ring.
    + unfold sparkLine, distance. cbn [y1]. rewrite He. ring.
    + unfold lineLength. rewrite He. ring.
  - intros ts spark. split; [reflexivity | split; [apply sparkLine_length |]].
    intros He. unfold lineLength. rewrite He. ring.
  - intros ts1 ts2 spark Hs Hd H0 H12 H2.
    destruct (progress_monotone p spark ts1 ts2 Hd H0 H12 H2) as (P0 & P12 & P1).
    pose proof (easeFunc_monotone p _ _ P0 P12 P1) as Hmono.
    assert (U1 : 0 <= eased p ts1 spark <= 1) by (apply easeFunc_unit; lra).
    assert (U2 : 0 <= eased p ts2 spark <= 1) by (apply easeFunc_unit; lra).
    unfold lineLength. fold (eased p ts1 spark) (eased p ts2 spark) in Hmono.
    repeat split; nra.
  - intros ts spark progress. repeat split; reflexivity.
  - intros ts1 ts2 spark Hs Hd H0 H12 H2.
    destruct (progress_monotone p spark ts1 ts2 Hd H0 (Rlt_le _ _ H12) H2) as (P0 & _ & P1).
    assert (P12 : (ts1 - startTime spark) / duration p < (ts2 - startTime spark) / duration p).
    { unfold Rdiv. apply Rmult_lt_compat_r; [apply Rinv_0_lt_compat; exact Hd | lra]. }
    pose proof (easeFunc_strict p _ _ P0 P12 P1) as Hstrict.
    unfold lineLength, eased. apply Rmult_lt_compat_l; [exact Hs | lra].
  - intros spark Hd. split.
    + unfold lineLength, eased.
      replace ((startTime spark + duration p - startTime spark) / duration p) with 1
        by (field; lra).
      rewrite easeFunc_1. ring.
    + intros Hs eps Heps.
      set (delta := Rmin 1 (eps / (2 * (sparkSize p + 1)))).
      assert (Hq : 0 < eps / (2 * (sparkSize p + 1)))
        by (apply Rdiv_lt_0_compat; lra).
      assert (Hdelta : 0 < delta <= 1).
      { unfold delta. split; [apply Rmin_glb_lt; lra | apply Rmin_l]. }
      assert (Hdq : delta <= eps / (2 * (sparkSize p + 1))) by (unfold delta; apply Rmin_r).
      exists (startTime spark + (1 - delta) * duration p).
      assert (Hpos : 0 < delta * duration p) by (apply Rmult_lt_0_compat; lra).
      assert (Hle : 0 <= (1 - delta) * duration p) by (apply Rmult_le_pos; lra).
      split; [split; nra |]. split.
      * unfold expired. destruct (Rge_dec _ _); [nra | reflexivity].
      * unfold lineLength, eased. rewrite (progress_at p spark (1 - delta) Hd).
        pose proof (easeFunc_unit p (1 - delta)) as Hu.
        pose proof (easeFunc_gap p (1 - delta)) as Hg.
        assert (Hrange : 0 <= 1 - delta <= 1) by lra.
        specialize (Hu Hrange). specialize (Hg Hrange).
        split; [apply Rmult_le_pos; lra |].
        assert (Hb : sparkSize p * (1 - easeFunc p (1 - delta))
                     <= sparkSize p * (2 * delta))
          by (apply Rmult_le_compat_l; lra).
        assert (Hc : sparkSize p * (2 * delta)
                     <= sparkSize p * (2 * (eps / (2 * (sparkSize p + 1)))))
          by (apply Rmult_le_compat_l; lra).
        assert (Hd2 : sparkSize p * (2 * (eps / (2 * (sparkSize p + 1)))) < eps).
        { replace (sparkSize p * (2 * (eps / (2 * (sparkSize p + 1)))))
            with (eps * (sparkSize p / (sparkSize p + 1))) by (field; lra).
          rewrite <- (Rmult_1_r eps) at 2. apply Rmult_lt_compat_l; [exact Heps |].
          apply Rmult_lt_reg_r with (sparkSize p + 1); [lra |].
          replace (sparkSize p / (sparkSize p + 1) * (sparkSize p + 1)) with (sparkSize p)
            by (field; lra).
          lra. }
        lra.
Qed.

(** The sparks of [App] (size 12, radius 25, 400 ms, ease-out): at its
    birth a spark's line starts at the click and is 12 long; half way
    through its life the easing is at 3/4, the near point 18.75 from the
    click and the line 3 long. *)
Lemma ease_endpoints_and_spark_line_witness :
  let spark := {| x := 40; y := 30; angle := PI / 4; startTime := 1000 |} in
  x1 (sparkLine appProps 1000 spark) = 40
  /\ y1 (sparkLine appProps 1000 spark) = 30
  /\ lineLength appProps 1000 spark = 12
  /\ eased appProps 1200 spark = 3 / 4
  /\ distance appProps 1200 spark = 75 / 4
  /\ lineLength appProps 1200 spark = 3.
Proof.
  intros spark.
  pose proof (ease_endpoints_and_spark_line appProps)
    as (_ & _ & Hmodes & Hborn & _ & _ & Hform & _ & _).
  destruct (Hborn spark) as (_ & _ & Hx & Hy & Hl); [cbn; lra |].
  destruct (Hform 1200 spark) as (He & Hdist & Hlen & _).
  destruct (Hmodes ((1200 - startTime spark) / duration appProps)) as (_ & _ & _ & Hout).
  cbv zeta in He, Hdist, Hlen.
  rewrite Hout in He, Hdist, Hlen by (cbn; discriminate).
  cbn [startTime spark duration sparkRadius extraScale sparkSize appProps]
    in He, Hdist, Hlen.
  split; [exact Hx | split; [exact Hy | split; [exact Hl |]]].
  split; [rewrite He; field | split; [rewrite Hdist; field | rewrite Hlen; field]].
Defined.

End SparkFacts.

(** * Further properties *)

(** ** [throttle]: rate and pauses *)

Module ThrottleMore.
Import Throttle.
Local Open Scope R_scope.

(** The [k]-th call that passes (from 0) is at least [(k + 1) * limit]
    after the starting [lastCall]. *)
Lemma calls_nth_after {A : Type} (limit : R) (evs : list (R * A)) :
  forall lastCall k tk,
    nth_error (map fst (calls limit lastCall evs)) k = Some tk ->
    tk - lastCall >= INR (Datatypes.S k) * limit.
Proof.
  induction evs as [| [now args] rest IH]; intros lastCall k tk Hk.
  - destruct k; discriminate Hk.
  - cbn [calls] in Hk. destruct (Rge_dec (now - lastCall) limit) as [Hge | _].
    + destruct k as [| k]; cbn [map fst nth_error] in Hk.
      * inversion Hk; subst. cbn [INR]. lra.
      * specialize (IH now k tk Hk).
        replace (INR (Datatypes.S (Datatypes.S k))) with (INR (Datatypes.S k) + 1)
          by (rewrite (S_INR (Datatypes.S k)); reflexivity).
        lra.
    + apply IH. exact Hk.
Qed.

Lemma calls_In {A : Type} (limit : R) (evs : list (R * A)) : forall lastCall ev,
  In ev (calls limit lastCall evs) -> In ev evs.
Proof.
  induction evs as [| [now args] rest IH]; intros lastCall ev H; [exact H |].
  cbn [calls] in H. destruct (Rge_dec (now - lastCall) limit).
  - destruct H as [<- | H]; [left; reflexivity | right; apply (IH _ _ H)].
  - right. apply (IH _ _ H).
Qed.

(** X1.  Whatever the calls made, the [k]-th call that reaches the wrapped
    function (counting from 0) is made at a time of at least
    [(k + 1) * limit]: nothing passes before [limit], and of calls all
    made by a time [T >= 0] at most [T / limit] pass. *)
Theorem throttle_rate_bound :
  forall (A : Type) (limit : R) (evs : list (R * A)),
    (forall k tk,
        nth_error (map fst (calls limit lastCall0 evs)) k = Some tk ->
        tk >= INR (Datatypes.S k) * limit)
    /\ (forall T,
          0 <= T -> (forall ev, In ev evs -> fst ev <= T) ->
          INR (List.length (calls limit lastCall0 evs)) * limit <= T).
Proof.
  intros A limit evs. split.
  - intros k tk Hk. pose proof (calls_nth_after limit evs lastCall0 k tk Hk) as H.
    unfold lastCall0 in H. lra.
  - intros T HT Hall.
    destruct (List.length (calls limit lastCall0 evs)) as [| n] eqn:El.
    + cbn [INR]. lra.
    + destruct (nth_error (calls limit lastCall0 evs) n) as [ev |] eqn:En.
      * assert (Hk : nth_error (map fst (calls limit lastCall0 evs)) n = Some (fst ev))
          by (rewrite nth_error_map, En; reflexivity).
        pose proof (calls_nth_after limit evs lastCall0 n (fst ev) Hk) as H.
        unfold lastCall0 in H.
        assert (Hin : In ev evs).
        { apply (calls_In limit evs lastCall0). eapply nth_error_In. exact En. }
        specialize (Hall ev Hin). lra.
      * apply nth_error_None in En. lia.
Qed.

(** Three of five moves pass in the first 170 ms at 50 ms. *)
Lemma throttle_rate_bound_witness :
  INR (List.length (calls 50 lastCall0
         [(10, tt); (60, tt); (70, tt); (120, tt); (170, tt)])) * 50 <= 170.
Proof.
  refine (proj2 (throttle_rate_bound unit 50
            [(10, tt); (60, tt); (70, tt); (120, tt); (170, tt)]) 170 _ _).
  - lra.
  - intros ev Hin. cbn [In] in Hin.
    repeat (destruct Hin as [<- | Hin]; [cbn [fst]; lra |]). contradiction.
Defined.

(** The [lastCall] a run ends with is the starting one or the time of one
    of the calls. *)
Lemma run_lastCall {A S : Type} (func : A -> S -> S) (limit : R) (evs : list (R * A)) :
  forall lastCall s,
    fst (run func limit evs (lastCall, s)) = lastCall
    \/ In (fst (run func limit evs (lastCall, s))) (map fst evs).
Proof.
  induction evs as [| [now args] rest IH]; intros lastCall s; [left; reflexivity |].
  unfold run in *. cbn [fold_left fst snd throttled map].
  destruct (Rge_dec (now - lastCall) limit).
  - destruct (IH now (func args s)) as [-> | H]; right; [left; reflexivity | right; exact H].
  - destruct (IH lastCall s) as [-> | H]; [left; reflexivity | right; right; exact H].
Qed.

(** X2.  On a clock that starts at 0 and does not run backwards, a call
    made at least [limit] after the call before it always passes. *)
Theorem throttle_passes_after_pause :
  forall (A S : Type) (func : A -> S -> S) (limit : R)
         (before : list (R * A)) (prev ev : R * A) (s : S),
    0 <= fst prev ->
    (forall e, In e before -> fst e <= fst prev) ->
    fst ev - fst prev >= limit ->
    run func limit (before ++ [prev; ev]) (lastCall0, s) =
    (fst ev, func (snd ev) (snd (run func limit (before ++ [prev]) (lastCall0, s)))).
Proof.
  intros A S func limit before prev ev s H0 Hbefore Hpause.
  change (before ++ [prev; ev]) with (before ++ [prev] ++ [ev]).
  rewrite app_assoc. unfold run at 1. rewrite fold_left_app. fold (run func limit (before ++ [prev]) (lastCall0, s)).
  destruct (run_lastCall func limit (before ++ [prev]) lastCall0 s) as [Hl | Hl];
    destruct (run func limit (before ++ [prev]) (lastCall0, s)) as [lc s'];
    cbn [fst snd] in *; cbn [fold_left throttled].
  - subst lc. unfold lastCall0.
    destruct (Rge_dec (fst ev - 0) limit); [reflexivity | lra].
  - assert (Hle : lc <= fst prev).
    { rewrite map_app in Hl. apply in_app_or in Hl. destruct Hl as [Hl | [<- | []]].
      - apply in_map_iff in Hl. destruct Hl as (e & <- & He). apply Hbefore. exact He.
      - lra. }
    destruct (Rge_dec (fst ev - lc) limit); [reflexivity | lra].
Qed.

(** A move at 1000 ms, 60 ms after the one before it. *)
Lemma throttle_passes_after_pause_witness :
  run (fun (_ : unit) (n : nat) => Datatypes.S n) 50
      ([(900, tt)] ++ [(940, tt); (1000, tt)]) (lastCall0, 0%nat)
  = (1000, Datatypes.S (snd (run (fun (_ : unit) (n : nat) => Datatypes.S n) 50
                                  ([(900, tt)] ++ [(940, tt)]) (lastCall0, 0%nat)))).
Proof.
  refine (throttle_passes_after_pause unit nat (fun _ n => Datatypes.S n) 50
            [(900, tt)] (940, tt) (1000, tt) 0%nat _ _ _); cbn [fst].
  - lra.
  - intros e [<- | []]. cbn [fst]. lra.
  - lra.
Defined.

End ThrottleMore.

(** ** [hexToRgb]: what is not a colour, and the optional [#] *)

Module ColorMore.
Import Color.
Local Open Scope string_scope.

Lemma strictHex_length hex :
  strictHex hex -> String.length hex = 6%nat \/ String.length hex = 7%nat.
Proof.
  intros (c1 & c2 & c3 & c4 & c5 & c6 & _ & [-> | ->]); [left | right]; reflexivity.
Qed.

Lemma hexToRgb_unmatched hex :
  hexMatch hex = None -> hexToRgb hex = Some {| r := 0; g := 0; b := 0 |}.
Proof. intros H. unfold hexToRgb. rewrite H. reflexivity. Qed.

(** X4.  A string that is not 6 characters long, nor 7, is read as black:
    the three-digit shorthand ([#fff]), a colour with an alpha channel
    ([#rrggbbaa]), a colour name and the empty string all are. *)
Theorem hexToRgb_wrong_length :
  forall hex : string,
    String.length hex <> 6%nat -> String.length hex <> 7%nat ->
    hexToRgb hex = Some {| r := 0; g := 0; b := 0 |}.
Proof.
  intros hex H6 H7. apply hexToRgb_unmatched.
  destruct (hexMatch hex) as [gs |] eqn:E; [| reflexivity].
  exfalso.
  assert (Hs : strictHex hex) by (apply ColorFacts.hexMatch_strict; congruence).
  apply strictHex_length in Hs. destruct Hs; contradiction.
Qed.

(** The default spark colour, were it given to the grid. *)
Lemma hexToRgb_wrong_length_witness :
  hexToRgb "#fff" = Some {| r := 0; g := 0; b := 0 |}
  /\ hexToRgb "#FF8C0080" = Some {| r := 0; g := 0; b := 0 |}.
Proof.
  split; apply hexToRgb_wrong_length; cbn; discriminate.
Defined.

(** X5.  The leading [#] is optional, and only one is taken: for every
    string that does not itself start with [#], the empty string
    included, the colour read with a [#] in front is the colour read
    without; and every string that starts with two [#] is black. *)
Theorem hexToRgb_hash_optional :
  forall s : string,
    ((forall rest, s <> String "#" rest) ->
     hexToRgb (String "#" s) = hexToRgb s)
    /\ hexToRgb (String "#" (String "#" s)) = Some {| r := 0; g := 0; b := 0 |}.
Proof.
  intros s. split.
  - intros Hs. unfold hexToRgb, hexMatch. cbn [stripHash]. rewrite Ascii.eqb_refl.
    destruct s as [| c rest]; [reflexivity |]. cbn [stripHash].
    destruct (Ascii.eqb c "#") eqn:Ec; [| reflexivity].
    apply Ascii.eqb_eq in Ec. subst c. exfalso. apply (Hs rest). reflexivity.
  - apply hexToRgb_unmatched. unfold hexMatch. cbn [stripHash]. rewrite Ascii.eqb_refl.
    destruct (sixHex (String "#" s)) as [gs |] eqn:E; [| reflexivity].
    apply ColorFacts.sixHex_Some in E.
    destruct E as (c1 & c2 & c3 & c4 & c5 & c6 & Hd & Hb & _).
    injection Hb as <- _. apply Forall_inv in Hd. discriminate Hd.
Qed.

(** The grid's base colour in [App], with and without its [#]; and a
    lone [#], which reads as the empty string does. *)
Lemma hexToRgb_hash_optional_witness :
  hexToRgb "#dcdcdc" = hexToRgb "dcdcdc"
  /\ hexToRgb "#" = hexToRgb "".
Proof.
  split.
  - refine (proj1 (hexToRgb_hash_optional "dcdcdc") _). intros rest H. discriminate H.
  - refine (proj1 (hexToRgb_hash_optional "") _). intros rest H. discriminate H.
Defined.

End ColorMore.

(** ** [buildGrid]: the lattice in its container *)

Module GridMore.
Import JsMath DotGrid DotGridAux.
Local Open Scope R_scope.

(** The dot of a row and a column, whatever the sizes. *)
Lemma buildGrid_nth p rect old row col :
  (row < rowsOf p rect)%nat -> (col < colsOf p rect)%nat ->
  nth_error (buildGrid p (Some rect) old) (row * colsOf p rect + col)
  = Some (dotAt p rect col row).
Proof.
  intros Hrow Hcol. rewrite GridFacts.buildGrid_rows. fold (colsOf p rect) (rowsOf p rect).
  rewrite GridFacts.nth_error_rows
    with (f := fun row => map (fun col => dotAt p rect col row) (seq 0 (colsOf p rect))).
  - rewrite nth_error_seq.
    destruct (Nat.ltb_spec row (rowsOf p rect)) as [_ | Hge]; [| lia].
    cbn [Nat.add]. rewrite nth_error_map, nth_error_seq.
    destruct (Nat.ltb_spec col (colsOf p rect)) as [_ | Hge]; [| lia].
    reflexivity.
  - intros a. rewrite length_map, length_seq. reflexivity.
  - exact Hcol.
Qed.

Lemma buildGrid_In p rect old d :
  In d (buildGrid p (Some rect) old) ->
  exists row col, (row < rowsOf p rect)%nat /\ (col < colsOf p rect)%nat
                  /\ d = dotAt p rect col row.
Proof.
  rewrite GridFacts.buildGrid_rows. fold (colsOf p rect) (rowsOf p rect). intros Hin.
  apply in_flat_map in Hin. destruct Hin as (row & Hrow & Hin).
  apply in_map_iff in Hin. destruct Hin as (col & <- & Hcol).
  apply in_seq in Hrow. apply in_seq in Hcol.
  exists row, col. repeat split; lia.
Qed.

(** The floor of a quotient of a non-negative number by a positive one,
    from both sides. *)
Lemma floor_quotient_bounds (a c : R) :
  0 <= a -> 0 < c ->
  (0 <= floor (a / c))%Z
  /\ IZR (floor (a / c)) * c <= a < (IZR (floor (a / c)) + 1) * c.
Proof.
  intros Ha Hc. destruct (GridFacts.floor_quotient a c Ha Hc) as [H0 Hle].
  split; [exact H0 | split; [exact Hle |]].
  unfold floor. pose proof (Zfloor_bound (a / c)) as [_ Hhi].
  replace a with (a / c * c) at 1 by (field; lra).
  apply Rmult_lt_compat_r; lra.
Qed.

(** One axis: [n] cells of pitch [d + g] laid in an extent [w], [n] being
    as many as fit.  Every disc of diameter [d] is inside the extent, and
    the margin before the first is less than half a pitch. *)
Lemma axis_disc (w d g : R) (n : Z) (i : nat) :
  0 <= d -> 0 <= g -> 0 < d + g ->
  IZR n * (d + g) <= w + g < (IZR n + 1) * (d + g) ->
  (i < Z.to_nat n)%nat ->
  let cell := d + g in
  let start := (w - (cell * IZR n - g)) / 2 + d / 2 in
  d / 2 <= start + INR i * cell <= w - d / 2
  /\ 0 <= start - d / 2 < cell / 2.
Proof.
  intros Hd Hg Hc [Hlo Hhi] Hi cell start. subst cell start.
  destruct (GridFacts.counter_below i n Hi) as [H0 H1].
  assert (Hic : 0 <= INR i * (d + g)) by (apply Rmult_le_pos; lra).
  assert (Hlast : INR i * (d + g) <= (IZR n - 1) * (d + g))
    by (apply Rmult_le_compat_r; lra).
  repeat split; lra.
Qed.

(** X6.  For a container of width [W >= 0] and height [H >= 0], a
    diameter [d >= 0] and a gap [g >= 0] with [d + g > 0]: the whole disc
    of every dot, not only its centre, lies inside the container, and
    the grid is as large as fits - the margin between the container's
    edge and the first disc is less than half a pitch on either axis. *)
Theorem buildGrid_discs_inside :
  forall (p : Props) (rect : Rect) (old : list Dot),
    0 <= width rect -> 0 <= height rect ->
    0 <= dotSize p -> 0 <= gap p -> 0 < dotSize p + gap p ->
    Forall (fun d =>
              dotSize p / 2 <= cx d <= width rect - dotSize p / 2
              /\ dotSize p / 2 <= cy d <= height rect - dotSize p / 2)
           (buildGrid p (Some rect) old)
    /\ (forall d0, nth_error (buildGrid p (Some rect) old) 0 = Some d0 ->
          0 <= cx d0 - dotSize p / 2 < (dotSize p + gap p) / 2
          /\ 0 <= cy d0 - dotSize p / 2 < (dotSize p + gap p) / 2).
Proof.
  intros p rect old HW HH Hd Hg Hc.
  destruct (floor_quotient_bounds (width rect + gap p) (dotSize p + gap p))
    as [_ Hcols]; [lra | exact Hc |].
  destruct (floor_quotient_bounds (height rect + gap p) (dotSize p + gap p))
    as [_ Hrows]; [lra | exact Hc |].
  split.
  - apply Forall_forall. intros d Hin. apply buildGrid_In in Hin.
    destruct Hin as (row & col & Hrow & Hcol & ->). unfold dotAt. cbn [cx cy]. split.
    + apply (axis_disc (width rect) (dotSize p) (gap p) _ col); assumption.
    + apply (axis_disc (height rect) (dotSize p) (gap p) _ row); assumption.
  - intros d0 H0.
    assert (Hin : In d0 (buildGrid p (Some rect) old)) by (eapply nth_error_In; exact H0).
    apply buildGrid_In in Hin. destruct Hin as (row & col & Hrow & Hcol & _).
    assert (H00 : nth_error (buildGrid p (Some rect) old) (0 * colsOf p rect + 0)
                  = Some (dotAt p rect 0 0)) by (apply buildGrid_nth; lia).
    cbn [Nat.mul Nat.add] in H00. rewrite H0 in H00. injection H00 as ->.
    unfold dotAt. cbn [cx cy INR].
    pose proof (axis_disc (width rect) (dotSize p) (gap p) _ 0 Hd Hg Hc Hcols) as Hx.
    pose proof (axis_disc (height rect) (dotSize p) (gap p) _ 0 Hd Hg Hc Hrows) as Hy.
    cbv zeta in Hx, Hy. cbn [INR] in Hx, Hy.
    unfold colsOf in Hcol. unfold rowsOf in Hrow.
    destruct Hx as [_ Hx]; [lia |]. destruct Hy as [_ Hy]; [lia |].
    split; lra.
Qed.

(** The grid of [App] in a container of 300 by 300: every disc of
    diameter 2 is inside. *)
Lemma buildGrid_discs_inside_witness :
  let rect := {| left := 0; top := 0; width := 300; height := 300 |} in
  Forall (fun d => 2 / 2 <= cx d <= 300 - 2 / 2 /\ 2 / 2 <= cy d <= 300 - 2 / 2)
         (buildGrid appProps (Some rect) []).
Proof.
  intros rect.
  refine (proj1 (buildGrid_discs_inside appProps rect [] _ _ _ _ _)); cbn; lra.
Defined.

Lemma INR_mirror (n i : nat) :
  (i < n)%nat -> INR (n - 1 - i) = INR n - 1 - INR i.
Proof.
  intros Hi. rewrite !minus_INR by lia. cbn [INR]. reflexivity.
Qed.

(** X7.  The grid is centred in its container, whatever the sizes: a dot
    and the dot of the mirrored column are at the same distance from the
    two vertical edges ([cx + cx' = W]), and likewise for rows
    ([cy + cy' = H]). *)
Theorem buildGrid_centred :
  forall (p : Props) (rect : Rect) (old : list Dot) (row col : nat) (d d' : Dot),
    (row < rowsOf p rect)%nat -> (col < colsOf p rect)%nat ->
    nth_error (buildGrid p (Some rect) old) (row * colsOf p rect + col) = Some d ->
    nth_error (buildGrid p (Some rect) old)
              ((rowsOf p rect - 1 - row) * colsOf p rect + (colsOf p rect - 1 - col))
      = Some d' ->
    cx d + cx d' = width rect /\ cy d + cy d' = height rect.
Proof.
  intros p rect old row col d d' Hrow Hcol Hd Hd'.
  rewrite buildGrid_nth in Hd by assumption.
  rewrite buildGrid_nth in Hd' by lia.
  injection Hd as <-. injection Hd' as <-.
  unfold dotAt. cbn [cx cy].
  rewrite (INR_mirror _ _ Hcol), (INR_mirror _ _ Hrow).
  unfold colsOf, rowsOf.
  assert (Hc : INR (Z.to_nat (floor ((width rect + gap p) / (dotSize p + gap p))))
               = IZR (floor ((width rect + gap p) / (dotSize p + gap p)))).
  { rewrite INR_IZR_INZ. f_equal. unfold colsOf in Hcol. lia. }
  assert (Hr : INR (Z.to_nat (floor ((height rect + gap p) / (dotSize p + gap p))))
               = IZR (floor ((height rect + gap p) / (dotSize p + gap p)))).
  { rewrite INR_IZR_INZ. f_equal. unfold rowsOf in Hrow. lia. }
  rewrite Hc, Hr. split; field.
Qed.

Lemma one_by_one :
  colsOf defaultProps rect16 = 1%nat /\ rowsOf defaultProps rect16 = 1%nat.
Proof.
  assert (Hf : floor ((16 + 32) / (16 + 32)) = 1%Z)
    by (unfold floor; apply Zfloor_eq; lra).
  unfold colsOf, rowsOf. cbn [width height rect16 gap dotSize defaultProps].
  rewrite Hf. split; reflexivity.
Qed.

(** The one dot of the 16 by 16 container is its own mirror image, in the
    middle. *)
Lemma buildGrid_centred_witness :
  cx dot88 + cx dot88 = 16 /\ cy dot88 + cy dot88 = 16.
Proof.
  destruct one_by_one as [Hc Hr].
  refine (buildGrid_centred defaultProps rect16 [] 0 0 dot88 dot88 _ _ _ _).
  - rewrite Hr. lia.
  - rewrite Hc. lia.
  - rewrite DisplaceFacts.grid16. reflexivity.
  - rewrite Hc, Hr, DisplaceFacts.grid16. reflexivity.
Defined.

(** Two different counters are at least one apart. *)
Lemma INR_apart (i j : nat) : i <> j -> 1 <= (INR i - INR j) * (INR i - INR j).
Proof.
  intros Hij.
  assert (H : INR i + 1 <= INR j \/ INR j + 1 <= INR i).
  { destruct (Nat.lt_total i j) as [Hlt | [Heq | Hgt]]; [left | contradiction | right];
      rewrite <- S_INR; apply le_INR; lia. }
  destruct H; nra.
Qed.

Lemma hypot_ge_component (a b c : R) :
  0 <= c -> c * c <= a * a + b * b -> c <= hypot a b.
Proof.
  intros Hc H. unfold hypot. rewrite <- (sqrt_square c Hc).
  apply sqrt_le_1; [nra | nra | exact H].
Qed.

(** X8.  With a non-negative pitch, two different dots of a grid have
    their centres at least a pitch [d + g] apart: for a non-negative gap
    no two discs overlap. *)
Theorem buildGrid_dots_apart :
  forall (p : Props) (rect : Rect) (old : list Dot)
         (row1 col1 row2 col2 : nat) (d1 d2 : Dot),
    0 <= dotSize p + gap p ->
    (row1 < rowsOf p rect)%nat -> (col1 < colsOf p rect)%nat ->
    (row2 < rowsOf p rect)%nat -> (col2 < colsOf p rect)%nat ->
    (row1, col1) <> (row2, col2) ->
    nth_error (buildGrid p (Some rect) old) (row1 * colsOf p rect + col1) = Some d1 ->
    nth_error (buildGrid p (Some rect) old) (row2 * colsOf p rect + col2) = Some d2 ->
    dotSize p + gap p <= hypot (cx d1 - cx d2) (cy d1 - cy d2).
Proof.
  intros p rect old row1 col1 row2 col2 d1 d2 Hc Hr1 Hc1 Hr2 Hc2 Hne H1 H2.
  rewrite buildGrid_nth in H1 by assumption.
  rewrite buildGrid_nth in H2 by assumption.
  injection H1 as <-. injection H2 as <-.
  unfold dotAt. cbn [cx cy].
  set (cell := dotSize p + gap p) in *.
  apply hypot_ge_component; [exact Hc |].
  match goal with
  | |- _ <= (?sx + INR col1 * cell - (?sx + INR col2 * cell))
            * _ + (?sy + INR row1 * cell - (?sy + INR row2 * cell)) * _ =>
      replace (sx + INR col1 * cell - (sx + INR col2 * cell))
        with ((INR col1 - INR col2) * cell) by ring;
      replace (sy + INR row1 * cell - (sy + INR row2 * cell))
        with ((INR row1 - INR row2) * cell) by ring
  end.
  set (dc := INR col1 - INR col2). set (dr := INR row1 - INR row2).
  replace (dc * cell * (dc * cell) + dr * cell * (dr * cell))
    with ((dc * dc) * (cell * cell) + (dr * dr) * (cell * cell)) by ring.
  assert (Hsq : 0 <= cell * cell) by (apply Rmult_le_pos; assumption).
  assert (Hx : 0 <= dc * dc) by (apply Rle_0_sqr).
  assert (Hy : 0 <= dr * dr) by (apply Rle_0_sqr).
  assert (Hsum : 1 <= dc * dc + dr * dr).
  { destruct (Nat.eq_dec col1 col2) as [Ec | Nc].
    - assert (Nr : row1 <> row2) by (intros ->; apply Hne; subst; reflexivity).
      pose proof (INR_apart _ _ Nr). fold dr in H. lra.
    - pose proof (INR_apart _ _ Nc). fold dc in H. lra. }
  replace ((dc * dc) * (cell * cell) + (dr * dr) * (cell * cell))
    with (cell * cell + (dc * dc + dr * dr - 1) * (cell * cell)) by ring.
  assert (0 <= (dc * dc + dr * dr - 1) * (cell * cell)) by (apply Rmult_le_pos; lra).
  lra.
Qed.

Lemma eleven_by_eleven :
  colsOf appProps rect300 = 11%nat /\ rowsOf appProps rect300 = 11%nat.
Proof.
  unfold colsOf, rowsOf. cbn [width height rect300 gap dotSize appProps].
  rewrite GridFacts.floor_326_28. split; reflexivity.
Qed.

(** The two first dots of the grid of [App] in a container of 300 by 300
    are 28 px apart or more. *)
Lemma buildGrid_dots_apart_witness :
  2 + 26 <= hypot (cx (dotAt appProps rect300 0 0) - cx (dotAt appProps rect300 1 0))
                  (cy (dotAt appProps rect300 0 0) - cy (dotAt appProps rect300 1 0)).
Proof.
  destruct eleven_by_eleven as [Hc Hr].
  refine (buildGrid_dots_apart appProps rect300 [] 0 0 0 1 _ _ _ _ _ _ _ _ _ _).
  - cbn. lra.
  - rewrite Hr. lia.
  - rewrite Hc. lia.
  - rewrite Hr. lia.
  - rewrite Hc. lia.
  - discriminate.
  - apply buildGrid_nth; [rewrite Hr | rewrite Hc]; lia.
  - apply buildGrid_nth; [rewrite Hr | rewrite Hc]; lia.
Defined.

(** X9.  For non-negative sizes with a positive pitch, a rebuild gives no
    dot exactly when the container is narrower or lower than one dot; a
    missing wrapper or canvas leaves the dots as they are. *)
Theorem buildGrid_empty_iff :
  forall (p : Props) (rect : Rect) (old : list Dot),
    0 <= width rect -> 0 <= height rect ->
    0 <= dotSize p -> 0 <= gap p -> 0 < dotSize p + gap p ->
    (buildGrid p (Some rect) old = [] <->
     width rect < dotSize p \/ height rect < dotSize p)
    /\ buildGrid p None old = old.
Proof.
  intros p rect old HW HH Hd Hg Hc. split; [| reflexivity].
  destruct (floor_quotient_bounds (width rect + gap p) (dotSize p + gap p))
    as [Hc0 [Hclo Hchi]]; [lra | exact Hc |].
  destruct (floor_quotient_bounds (height rect + gap p) (dotSize p + gap p))
    as [Hr0 [Hrlo Hrhi]]; [lra | exact Hc |].
  set (cols := floor ((width rect + gap p) / (dotSize p + gap p))) in *.
  set (rows := floor ((height rect + gap p) / (dotSize p + gap p))) in *.
  assert (Hcols : (cols = 0)%Z <-> width rect < dotSize p).
  { split.
    - intros E. rewrite E in Hchi. lra.
    - intros Hlt. destruct (Z.eq_dec cols 0) as [E | N]; [exact E | exfalso].
      assert (H1 : (1 <= cols)%Z) by lia. apply IZR_le in H1.
      assert (1 * (dotSize p + gap p) <= IZR cols * (dotSize p + gap p))
        by (apply Rmult_le_compat_r; lra).
      lra. }
  assert (Hrows : (rows = 0)%Z <-> height rect < dotSize p).
  { split.
    - intros E. rewrite E in Hrhi. lra.
    - intros Hlt. destruct (Z.eq_dec rows 0) as [E | N]; [exact E | exfalso].
      assert (H1 : (1 <= rows)%Z) by lia. apply IZR_le in H1.
      assert (1 * (dotSize p + gap p) <= IZR rows * (dotSize p + gap p))
        by (apply Rmult_le_compat_r; lra).
      lra. }
  rewrite <- Hcols, <- Hrows.
  rewrite <- length_zero_iff_nil, GridFacts.buildGrid_length. fold cols rows.
  split.
  - intros H. apply Nat.eq_mul_0 in H. destruct H; [right | left]; lia.
  - intros [-> | ->]; [rewrite Nat.mul_0_r | rewrite Nat.mul_0_l]; reflexivity.
Qed.

(** A container of 1 by 300 is narrower than the dots of [App]. *)
Lemma buildGrid_empty_iff_witness :
  buildGrid appProps (Some {| left := 0; top := 0; width := 1; height := 300 |}) [] = [].
Proof.
  refine (proj2 (proj1 (buildGrid_empty_iff appProps
            {| left := 0; top := 0; width := 1; height := 300 |} [] _ _ _ _ _)) _);
    cbn; lra.
Defined.

End GridMore.

(** ** [draw]: the range of the colours *)

Module DrawMore.
Import JsMath DotGrid.
Local Open Scope R_scope.

Lemma round_monotone a b : a <= b -> (round a <= round b)%Z.
Proof. intros H. unfold round. apply Zfloor_le. lra. Qed.

(** A channel moves from [base] towards [active] as [t] grows. *)
Lemma mix_monotone base active t1 t2 :
  t1 <= t2 ->
  ((base <= active)%Z -> (mix base active t1 <= mix base active t2)%Z)
  /\ ((active <= base)%Z -> (mix base active t2 <= mix base active t1)%Z).
Proof.
  intros Ht. split; intros H; apply IZR_le in H; unfold mix; apply round_monotone; nra.
Qed.

Lemma mix_between base active t :
  0 <= t <= 1 ->
  (Z.min base active <= mix base active t <= Z.max base active)%Z.
Proof.
  intros [H0 H1].
  destruct (mix_monotone base active 0 t H0) as [Ha Hb].
  destruct (mix_monotone base active t 1 H1) as [Hc Hd].
  rewrite DrawFacts.mix_0 in Ha, Hb. rewrite DrawFacts.mix_1 in Hc, Hd.
  destruct (Z.le_ge_cases base active) as [Hle | Hge].
  - specialize (Ha Hle). specialize (Hc Hle). lia.
  - specialize (Hb Hge). specialize (Hd Hge). lia.
Qed.

(** The interpolation parameter of a dot within reach is in [[0, 1]] and
    shrinks with the distance. *)
Lemma near_t p px py d :
  0 < proximity p -> distTo px py d <= proximity p ->
  0 <= 1 - distTo px py d / proximity p <= 1.
Proof.
  intros Hp Hd.
  assert (H0 : 0 <= distTo px py d) by (unfold distTo; apply PointerFacts.hypot_nonneg).
  assert (Hi : 0 < / proximity p) by (apply Rinv_0_lt_compat; exact Hp).
  assert (Hq : 0 <= distTo px py d / proximity p) by (apply Rmult_le_pos; lra).
  assert (Hq1 : distTo px py d / proximity p <= 1).
  { replace 1 with (proximity p / proximity p) by (field; lra).
    apply Rmult_le_compat_r; lra. }
  lra.
Qed.

(** X10.  Under a positive [proximity], a dot is filled either with the
    [baseColor] string or with an [rgb(r,g,b)] whose every channel lies
    between the base colour's and the active colour's: the interpolation
    never overshoots, so channels within 0..255 stay within 0..255. *)
Theorem fill_channels_between :
  forall (p : Props) (px py : R) (d : Dot),
    0 < proximity p ->
    style (drawDot p px py d) = Named (baseColor p)
    \/ exists r g b,
         style (drawDot p px py d) = Rgb r g b
         /\ (Z.min (Color.r (baseRgb p)) (Color.r (activeRgb p)) <= r
             <= Z.max (Color.r (baseRgb p)) (Color.r (activeRgb p)))%Z
         /\ (Z.min (Color.g (baseRgb p)) (Color.g (activeRgb p)) <= g
             <= Z.max (Color.g (baseRgb p)) (Color.g (activeRgb p)))%Z
         /\ (Z.min (Color.b (baseRgb p)) (Color.b (activeRgb p)) <= b
             <= Z.max (Color.b (baseRgb p)) (Color.b (activeRgb p)))%Z.
Proof.
  intros p px py d Hp.
  destruct (Rle_or_gt (distTo px py d) (proximity p)) as [Hle | Hgt].
  - right. rewrite DrawFacts.style_near by lra. cbv zeta.
    pose proof (near_t p px py d Hp Hle) as Ht.
    eexists _, _, _. split; [reflexivity |].
    repeat split; apply mix_between; exact Ht.
  - left. apply DrawFacts.style_far; lra.
Qed.

(** A dot 45 px from the pointer, with the colours of [App]. *)
Lemma fill_channels_between_witness :
  let d := {| cx := 55; cy := 20; xOffset := 0; yOffset := 0;
              _inertiaApplied := false |} in
  style (drawDot appProps 10 20 d) = Named "#dcdcdc"%string
  \/ exists r g b,
       style (drawDot appProps 10 20 d) = Rgb r g b
       /\ (Z.min 220 255 <= r <= Z.max 220 255)%Z
       /\ (Z.min 220 140 <= g <= Z.max 220 140)%Z
       /\ (Z.min 220 0 <= b <= Z.max 220 0)%Z.
Proof.
  intros d. refine (fill_channels_between appProps 10 20 d _). cbn. lra.
Defined.

(** X11.  Of two dots within reach of the pointer, the nearer one is
    coloured at least as far towards the active colour, channel by
    channel. *)
Theorem fill_nearer_more_active :
  forall (p : Props) (px py : R) (d1 d2 : Dot) (r1 g1 b1 r2 g2 b2 : Z),
    0 < proximity p ->
    distTo px py d1 <= distTo px py d2 ->
    style (drawDot p px py d1) = Rgb r1 g1 b1 ->
    style (drawDot p px py d2) = Rgb r2 g2 b2 ->
    ((Color.r (baseRgb p) <= Color.r (activeRgb p))%Z -> (r2 <= r1)%Z)
    /\ ((Color.r (activeRgb p) <= Color.r (baseRgb p))%Z -> (r1 <= r2)%Z)
    /\ ((Color.g (baseRgb p) <= Color.g (activeRgb p))%Z -> (g2 <= g1)%Z)
    /\ ((Color.g (activeRgb p) <= Color.g (baseRgb p))%Z -> (g1 <= g2)%Z)
    /\ ((Color.b (baseRgb p) <= Color.b (activeRgb p))%Z -> (b2 <= b1)%Z)
    /\ ((Color.b (activeRgb p) <= Color.b (baseRgb p))%Z -> (b1 <= b2)%Z).
Proof.
  intros p px py d1 d2 r1 g1 b1 r2 g2 b2 Hp Hd H1 H2.
  assert (Hnear : forall d r g b, style (drawDot p px py d) = Rgb r g b ->
                                  distTo px py d <= proximity p).
  { intros d r g b H. destruct (Rle_or_gt (distTo px py d) (proximity p)) as [Hle | Hgt];
      [exact Hle |]. rewrite DrawFacts.style_far in H by lra. discriminate H. }
  pose proof (Hnear _ _ _ _ H1) as Hn1. pose proof (Hnear _ _ _ _ H2) as Hn2.
  rewrite DrawFacts.style_near in H1 by lra. rewrite DrawFacts.style_near in H2 by lra.
  cbv zeta in H1, H2. injection H1 as <- <- <-. injection H2 as <- <- <-.
  assert (Ht : 1 - distTo px py d2 / proximity p <= 1 - distTo px py d1 / proximity p).
  { assert (Hi : 0 < / proximity p) by (apply Rinv_0_lt_compat; exact Hp).
    assert (distTo px py d1 / proximity p <= distTo px py d2 / proximity p)
      by (apply Rmult_le_compat_r; lra).
    lra. }
  repeat split; intros H; apply (mix_monotone _ _ _ _ Ht); exact H.
Qed.

Lemma distTo_self d : distTo (cx d) (cy d) d = 0.
Proof.
  unfold distTo, hypot.
  replace ((cx d - cx d) * (cx d - cx d) + (cy d - cy d) * (cy d - cy d)) with 0 by ring.
  apply sqrt_0.
Qed.

(** A dot under the pointer, and a dot 90 px from it, with the colours of
    [App]: the red channel of the first is the higher. *)
Lemma fill_nearer_more_active_witness : (220 <= 255)%Z.
Proof.
  pose (d1 := {| cx := 10; cy := 20; xOffset := 0; yOffset := 0;
                 _inertiaApplied := false |}).
  pose (d2 := {| cx := 100; cy := 20; xOffset := 0; yOffset := 0;
                 _inertiaApplied := false |}).
  assert (H1 : distTo 10 20 d1 = 0) by (apply (distTo_self d1)).
  assert (H2 : distTo 10 20 d2 = 90).
  { unfold distTo, hypot. cbn [cx cy d2].
    replace ((100 - 10) * (100 - 10) + (20 - 20) * (20 - 20)) with (90 * 90) by ring.
    apply sqrt_square. lra. }
  assert (Hp : 0 <= proximity appProps) by (cbn; lra).
  refine (proj1 (fill_nearer_more_active appProps 10 20 d1 d2
                   255 140 0 220 220 220 _ _ _ _) _).
  - cbn. lra.
  - rewrite H1, H2. lra.
  - rewrite DrawFacts.style_near; [| exact Hp | rewrite H1; cbn; lra].
    cbv zeta. rewrite H1. cbn [proximity appProps].
    replace (1 - 0 / 90) with 1 by field. rewrite !DrawFacts.mix_1. reflexivity.
  - rewrite DrawFacts.style_near; [| exact Hp | rewrite H2; cbn; lra].
    cbv zeta. rewrite H2. cbn [proximity appProps].
    replace (1 - 90 / 90) with 0 by field. rewrite !DrawFacts.mix_0. reflexivity.
  - cbn. lia.
Defined.

End DrawMore.

(** ** [onClick]: the shock *)

Module ClickMore.
Import JsMath DotGrid DotGridAux.
Local Open Scope R_scope.

Lemma clickTriggers_true p clx cly a :
  clickTriggers p clx cly a = true <->
  clickDist clx cly a < shockRadius p /\ _inertiaApplied (dot a) = false.
Proof.
  unfold clickTriggers, clickDist, ltb.
  destruct (Rlt_dec _ _) as [Hlt | Hge]; destruct (_inertiaApplied (dot a)); cbn;
    split; try discriminate; try (intros [? ?]; try discriminate; contradiction);
    intros _; split; auto.
Qed.

(** X12.  A click launches, on a dot whose flag is clear within the shock
    radius, an inertia tween whose push points from the click to the dot
    and has length [shockStrength * dist * (1 - dist / shockRadius)]: it
    is 0 on the click itself, tends to 0 at the rim, and is never more
    than [shockStrength * shockRadius / 4]. *)
Theorem click_push_bounded :
  forall (p : Props) (clx cly : R) (a : Animated),
    0 <= shockStrength p ->
    clickTriggers p clx cly a = true ->
    let dist := clickDist clx cly a in
    exists pushX pushY,
      tweens (clickDot p clx cly a) = [Inertia pushX pushY (resistance p)]
      /\ pushX = (cx (dot a) - clx) * (shockStrength p * (1 - dist / shockRadius p))
      /\ pushY = (cy (dot a) - cly) * (shockStrength p * (1 - dist / shockRadius p))
      /\ 0 <= shockStrength p * (1 - dist / shockRadius p)
      /\ hypot pushX pushY = shockStrength p * dist * (1 - dist / shockRadius p)
      /\ hypot pushX pushY <= shockStrength p * shockRadius p / 4.
Proof.
  intros p clx cly a Hs Htrig dist.
  pose proof (proj1 (clickTriggers_true p clx cly a) Htrig) as [Hd _]. fold dist in Hd.
  assert (H0 : 0 <= dist) by (apply PointerFacts.hypot_nonneg).
  assert (HR : 0 < shockRadius p) by lra.
  assert (Hq : 0 <= dist / shockRadius p < 1).
  { assert (Hi : 0 < / shockRadius p) by (apply Rinv_0_lt_compat; exact HR).
    split; [apply Rmult_le_pos; lra |].
    replace 1 with (shockRadius p / shockRadius p) by (field; lra).
    apply Rmult_lt_compat_r; lra. }
  assert (Hfall : max 0 (1 - dist / shockRadius p) = 1 - dist / shockRadius p)
    by (unfold max; apply Rmax_right; lra).
  assert (Hk : 0 <= shockStrength p * (1 - dist / shockRadius p))
    by (apply Rmult_le_pos; lra).
  exists ((cx (dot a) - clx) * (shockStrength p * (1 - dist / shockRadius p))),
         ((cy (dot a) - cly) * (shockStrength p * (1 - dist / shockRadius p))).
  split; [| split; [reflexivity | split; [reflexivity | split; [exact Hk |]]]].
  - unfold clickDot. rewrite Htrig. cbn. fold (clickDist clx cly a). fold dist.
    rewrite Hfall. do 2 f_equal; ring.
  - rewrite PointerFacts.hypot_scale by exact Hk. fold (clickDist clx cly a). fold dist.
    split; [ring |].
    assert (Hpar : dist * (1 - dist / shockRadius p) <= shockRadius p / 4).
    { replace (dist * (1 - dist / shockRadius p))
        with (shockRadius p / 4
              - (dist - shockRadius p / 2) * (dist - shockRadius p / 2) / shockRadius p)
        by (field; lra).
      assert (0 <= (dist - shockRadius p / 2) * (dist - shockRadius p / 2) / shockRadius p).
      { apply Rmult_le_pos; [apply Rle_0_sqr | left; apply Rinv_0_lt_compat; exact HR]. }
      lra. }
    replace (dist * (shockStrength p * (1 - dist / shockRadius p)))
      with (shockStrength p * (dist * (1 - dist / shockRadius p))) by ring.
    replace (shockStrength p * shockRadius p / 4)
      with (shockStrength p * (shockRadius p / 4)) by field.
    apply Rmult_le_compat_l; assumption.
Qed.

Lemma click5_triggers :
  clickTriggers defaultProps (11 - 0) (12 - 0) {| dot := dot88; tweens := [] |} = true.
Proof.
  unfold clickTriggers, ltb. cbn [dot dot88 cx cy _inertiaApplied shockRadius defaultProps].
  rewrite DisplaceFacts.hypot_click5. destruct (Rlt_dec 5 250); [reflexivity | lra].
Qed.

(** The click 5 px from the one dot of the 16 by 16 grid: the push is at
    most [5 * 250 / 4]. *)
Lemma click_push_bounded_witness :
  exists pushX pushY,
    tweens clicked = [Inertia pushX pushY 750]
    /\ hypot pushX pushY <= 5 * 250 / 4.
Proof.
  destruct (click_push_bounded defaultProps (11 - 0) (12 - 0)
              {| dot := dot88; tweens := [] |})
    as (pushX & pushY & Ht & _ & _ & _ & _ & Hb).
  - cbn. lra.
  - exact click5_triggers.
  - exists pushX, pushY. split; [exact Ht | exact Hb].
Defined.

End ClickMore.

(** ** [onMove]: speed, reach and rest *)

Module MoveMore.
Import JsMath DotGrid DotGridAux.
Local Open Scope R_scope.

(** The stored speed is never negative and never above [maxSpeed]. *)
Lemma stored_speed_range p now e rect pr :
  0 <= maxSpeed p ->
  0 <= speed (movePointer p now e rect pr) <= maxSpeed p.
Proof.
  intros Hmax.
  pose proof (PointerFacts.movePointer_velocity p now e rect pr) as Hv.
  destruct (Rle_or_gt (rawSpeed now e pr) (maxSpeed p)) as [Hle | Hgt].
  - rewrite (PointerFacts.velocity_free _ _ _ _ Hle) in Hv. inversion Hv as [[Hx Hy Hs]].
    pose proof (PointerFacts.hypot_nonneg (rawVx now e pr) (rawVy now e pr)) as H0.
    fold (rawSpeed now e pr) in H0. lra.
  - rewrite (PointerFacts.velocity_clamped _ _ _ _ Hgt) in Hv. inversion Hv as [[Hx Hy Hs]].
    lra.
Qed.

Lemma moveTriggers_slow p pr a :
  speed pr <= speedTrigger p -> moveTriggers p pr a = false.
Proof.
  intros H. unfold moveTriggers, gtb.
  destruct (Rgt_dec (speed pr) (speedTrigger p)); [lra | reflexivity].
Qed.

Lemma onMove_slow p now e rect st :
  speed (movePointer p now e rect (pointer st)) <= speedTrigger p ->
  dots (onMove p now e rect st) = dots st.
Proof.
  intros H. unfold onMove. cbn [dots].
  rewrite <- (map_id (dots st)) at 2. apply map_ext. intros a.
  unfold moveDot. rewrite moveTriggers_slow by exact H. reflexivity.
Qed.

(** X13.  With a non-negative [maxSpeed], every pointer move with a
    non-zero time step stores a speed between 0 and [maxSpeed]; so when
    [speedTrigger] is [maxSpeed] or more, no such pointer move displaces
    any dot, however fast the pointer. *)
Theorem move_speed_range_and_trigger :
  forall (p : Props) (now : R) (e : MouseEvent) (rect : Rect) (st : State),
    0 <= maxSpeed p ->
    dtOf now (pointer st) <> 0 ->
    0 <= speed (pointer (onMove p now e rect st)) <= maxSpeed p
    /\ (maxSpeed p <= speedTrigger p -> dots (onMove p now e rect st) = dots st).
Proof.
  intros p now e rect st Hmax _.
  pose proof (stored_speed_range p now e rect (pointer st) Hmax) as Hs.
  split; [exact Hs |].
  intros Htrig. apply onMove_slow. lra.
Qed.

(** The default props: a first move (time step 16 ms) stores a speed of at
    most 5000. *)
Lemma move_speed_range_and_trigger_witness :
  let e := {| clientX := 310; clientY := 20 |} in
  0 <= speed (pointer (onMove defaultProps 150 e rect16 state0)) <= 5000.
Proof.
  intros e.
  refine (proj1 (move_speed_range_and_trigger defaultProps 150 e rect16 state0 _ _)).
  - cbn. lra.
  - unfold dtOf. cbn [pointer state0 lastTime pointer0].
    destruct (Req_dec_T 0 0); lra.
Defined.

(** The length of a sum is at most the sum of the lengths. *)
Lemma hypot_triangle a b c d : hypot (a + c) (b + d) <= hypot a b + hypot c d.
Proof.
  pose proof (PointerFacts.hypot_nonneg a b) as HA.
  pose proof (PointerFacts.hypot_nonneg c d) as HC.
  assert (HA2 : hypot a b * hypot a b = a * a + b * b).
  { unfold hypot. apply sqrt_sqrt. pose proof (Rle_0_sqr a). pose proof (Rle_0_sqr b).
    unfold Rsqr in *. lra. }
  assert (HC2 : hypot c d * hypot c d = c * c + d * d).
  { unfold hypot. apply sqrt_sqrt. pose proof (Rle_0_sqr c). pose proof (Rle_0_sqr d).
    unfold Rsqr in *. lra. }
  set (A := hypot a b) in *. set (C := hypot c d) in *.
  assert (Hcs : a * c + b * d <= A * C).
  { destruct (Rle_or_gt (a * c + b * d) 0) as [Hn | Hp].
    - assert (0 <= A * C) by (apply Rmult_le_pos; assumption). lra.
    - assert (Hsq : (a * c + b * d) * (a * c + b * d) <= (A * C) * (A * C)).
      { replace ((A * C) * (A * C)) with ((A * A) * (C * C)) by ring.
        rewrite HA2, HC2.
        pose proof (Rle_0_sqr (a * d - b * c)) as Hd. unfold Rsqr in Hd. nra. }
      assert (0 <= A * C) by (apply Rmult_le_pos; assumption).
      destruct (Rle_or_gt (a * c + b * d) (A * C)) as [Hle | Hgt]; [exact Hle |].
      exfalso. nra. }
  unfold hypot at 1. rewrite <- (sqrt_square (A + C)) by lra.
  apply sqrt_le_1.
  - pose proof (Rle_0_sqr (a + c)). pose proof (Rle_0_sqr (b + d)). unfold Rsqr in *. lra.
  - apply Rmult_le_pos; lra.
  - nra.
Qed.

Lemma moveTriggers_true p pr a :
  moveTriggers p pr a = true ->
  speed pr > speedTrigger p
  /\ hypot (cx (dot a) - x pr) (cy (dot a) - y pr) < proximity p
  /\ _inertiaApplied (dot a) = false.
Proof.
  unfold moveTriggers, gtb, ltb.
  destruct (Rgt_dec _ _); destruct (Rlt_dec _ _); destruct (_inertiaApplied (dot a));
    cbn; try discriminate. intros _. repeat split; assumption.
Qed.

(** X14.  Under a positive [maxSpeed], the push of a displacement that a
    pointer move with a non-zero time step launches is shorter than
    [proximity + 0.005 * maxSpeed]: the vector from the pointer to the
    dot, shorter than [proximity], plus 5 ms of the clamped velocity. *)
Theorem move_push_bounded :
  forall (p : Props) (now : R) (e : MouseEvent) (rect : Rect)
         (pr0 : Pointer) (a : Animated),
    0 < maxSpeed p ->
    dtOf now pr0 <> 0 ->
    let pr := movePointer p now e rect pr0 in
    moveTriggers p pr a = true ->
    exists pushX pushY,
      tweens (moveDot p pr a) = [Inertia pushX pushY (resistance p)]
      /\ pushX = cx (dot a) - x pr + vx pr * (5 / 1000)
      /\ pushY = cy (dot a) - y pr + vy pr * (5 / 1000)
      /\ hypot pushX pushY < proximity p + maxSpeed p * (5 / 1000).
Proof.
  intros p now e rect pr0 a Hmax _ pr Htrig.
  destruct (moveTriggers_true p pr a Htrig) as (_ & Hd & _).
  destruct (PointerFacts.stored_velocity p now e rect pr0 Hmax) as (Hle & Hlen & _).
  fold pr in Hle, Hlen.
  exists (cx (dot a) - x pr + vx pr * (5 / 1000)),
         (cy (dot a) - y pr + vy pr * (5 / 1000)).
  split; [| split; [reflexivity | split; [reflexivity |]]].
  - unfold moveDot. rewrite Htrig. reflexivity.
  - eapply Rle_lt_trans; [apply hypot_triangle |].
    rewrite PointerFacts.hypot_scale by lra. rewrite <- Hlen.
    assert (speed pr * (5 / 1000) <= maxSpeed p * (5 / 1000))
      by (apply Rmult_le_compat_r; lra).
    lra.
Qed.

Lemma fastPointer_eq :
  x fastPointer = 11 - 0 /\ y fastPointer = 12 - 0 /\ speed fastPointer > 100.
Proof.
  unfold fastPointer, movePointer.
  destruct (velocity defaultProps 110 click5
              {| x := 0; y := 8; vx := 0; vy := 0; speed := 0;
                 lastTime := 100; lastX := 0; lastY := 8 |}) as [[vx' vy'] sp] eqn:E.
  cbn [x y speed clientX clientY click5 left top rect16].
  split; [reflexivity | split; [reflexivity |]].
  unfold velocity in E. cbn [lastTime lastX lastY clientX clientY click5 maxSpeed defaultProps] in E.
  destruct (Req_dec_T 100 0) as [Hz | _]; [lra |].
  set (raw := hypot ((11 - 0) / (110 - 100) * 1000) ((12 - 8) / (110 - 100) * 1000)) in E.
  assert (Hraw : 1100 <= raw).
  { unfold raw. apply GridMore.hypot_ge_component; [lra |].
    assert (0 <= (12 - 8) / (110 - 100) * 1000 * ((12 - 8) / (110 - 100) * 1000))
      by (apply Rle_0_sqr).
    replace ((11 - 0) / (110 - 100) * 1000) with 1100 by field. lra. }
  unfold gtb in E. destruct (Rgt_dec raw 5000); inversion E; subst; lra.
Qed.

Lemma move_push_bounded_witness :
  exists pushX pushY,
    tweens (moveDot defaultProps fastPointer {| dot := dot88; tweens := [] |})
    = [Inertia pushX pushY 750]
    /\ hypot pushX pushY < 150 + 5000 * (5 / 1000).
Proof.
  destruct fastPointer_eq as (Hx & Hy & Hs).
  destruct (move_push_bounded defaultProps 110 click5 rect16
              {| x := 0; y := 8; vx := 0; vy := 0; speed := 0;
                 lastTime := 100; lastX := 0; lastY := 8 |}
              {| dot := dot88; tweens := [] |})
    as (pushX & pushY & Ht & _ & _ & Hb).
  - cbn. lra.
  - unfold dtOf. cbn [lastTime]. destruct (Req_dec_T 100 0); lra.
  - fold fastPointer. unfold moveTriggers, gtb, ltb.
    cbn [dot dot88 cx cy _inertiaApplied speedTrigger proximity defaultProps].
    rewrite Hx, Hy, DisplaceFacts.hypot_click5.
    destruct (Rgt_dec (speed fastPointer) 100); [| lra].
    destruct (Rlt_dec 5 150); [reflexivity | lra].
  - exists pushX, pushY. split; [exact Ht | exact Hb].
Defined.

(** X15.  A pointer move that reports the position of the sample before
    it (a non-zero time step, [maxSpeed] and [speedTrigger] not negative)
    stores a zero velocity and displaces no dot. *)
Theorem move_without_motion :
  forall (p : Props) (now : R) (e : MouseEvent) (rect : Rect) (st : State),
    0 <= maxSpeed p -> 0 <= speedTrigger p ->
    dtOf now (pointer st) <> 0 ->
    clientX e = lastX (pointer st) -> clientY e = lastY (pointer st) ->
    vx (pointer (onMove p now e rect st)) = 0
    /\ vy (pointer (onMove p now e rect st)) = 0
    /\ speed (pointer (onMove p now e rect st)) = 0
    /\ dots (onMove p now e rect st) = dots st.
Proof.
  intros p now e rect st Hmax Htrig _ Hx Hy.
  assert (Hvx : rawVx now e (pointer st) = 0)
    by (unfold rawVx; rewrite Hx; unfold Rdiv; ring).
  assert (Hvy : rawVy now e (pointer st) = 0)
    by (unfold rawVy; rewrite Hy; unfold Rdiv; ring).
  assert (Hraw : rawSpeed now e (pointer st) = 0).
  { unfold rawSpeed, hypot. rewrite Hvx, Hvy.
    replace (0 * 0 + 0 * 0) with 0 by ring. apply sqrt_0. }
  pose proof (PointerFacts.movePointer_velocity p now e rect (pointer st)) as Hv.
  rewrite PointerFacts.velocity_free in Hv by lra.
  rewrite Hvx, Hvy, Hraw in Hv. inversion Hv as [[H1 H2 H3]].
  cbn [onMove pointer]. split; [| split; [| split]]; try (symmetry; assumption).
  apply onMove_slow. rewrite <- H3. exact Htrig.
Qed.

(** A first sample at the page's origin, where the initial pointer state
    already is. *)
Lemma move_without_motion_witness :
  speed (pointer (onMove defaultProps 500 {| clientX := 0; clientY := 0 |} rect16 state0)) = 0.
Proof.
  refine (proj1 (proj2 (proj2
            (move_without_motion defaultProps 500 {| clientX := 0; clientY := 0 |}
               rect16 state0 _ _ _ _ _)))).
  - cbn. lra.
  - cbn. lra.
  - unfold dtOf. cbn [pointer state0 lastTime pointer0].
    destruct (Req_dec_T 0 0); lra.
  - reflexivity.
  - reflexivity.
Defined.

End MoveMore.

(** ** The dots over the life of the component *)

Module MachineMore.
Import JsMath DotGrid DotGridAux.
Local Open Scope R_scope.

Lemma restOf_moveDot p pr a : restOf (moveDot p pr a) = restOf a.
Proof. unfold moveDot. destruct (moveTriggers p pr a); reflexivity. Qed.

Lemma restOf_clickDot p clx cly a : restOf (clickDot p clx cly a) = restOf a.
Proof. unfold clickDot. destruct (clickTriggers p clx cly a); reflexivity. Qed.

Lemma restOf_tickDot xo yo a : restOf (tickDot xo yo a) = restOf a.
Proof. unfold tickDot. destruct (tweens a); reflexivity. Qed.

Lemma restOf_completeTween p k a : restOf (completeTween p k a) = restOf a.
Proof.
  unfold completeTween. destruct (nth_error (tweens a) k) as [[? ? ? | ?] |]; reflexivity.
Qed.

Lemma map_update_nth {X Y : Type} (g : X -> Y) (f : X -> X) (l : list X) i :
  (forall a, g (f a) = g a) -> map g (update_nth i f l) = map g l.
Proof.
  intros H. revert i. induction l as [| h l IH]; intros i; destruct i; cbn; try reflexivity.
  - rewrite H. reflexivity.
  - rewrite IH. reflexivity.
Qed.

Lemma step_rest p st ev :
  isResize ev = false -> map restOf (dots (step p st ev)) = map restOf (dots st).
Proof.
  intros H. destruct ev as [wrap | now e rect | e rect | i xo yo | i k];
    [discriminate H | | | |]; cbn [step onMove onClick dots].
  - rewrite map_map. apply map_ext. intros a. apply restOf_moveDot.
  - rewrite map_map. apply map_ext. intros a. apply restOf_clickDot.
  - apply map_update_nth. intros a. apply restOf_tickDot.
  - apply map_update_nth. intros a. apply restOf_completeTween.
Qed.

(** X16.  Pointer moves, clicks, ticks of the animation library and tween
    ends never add, remove or reorder dots and never move a rest centre:
    between two rebuilds of the grid the lattice is fixed, and only the
    offsets and the flag change. *)
Theorem rest_centres_fixed :
  forall (p : Props) (evs : list Event) (st : State),
    forallb (fun ev => negb (isResize ev)) evs = true ->
    map restOf (dots (run p evs st)) = map restOf (dots st)
    /\ List.length (dots (run p evs st)) = List.length (dots st).
Proof.
  intros p evs st H.
  assert (Hmap : map restOf (dots (run p evs st)) = map restOf (dots st)).
  { revert st. induction evs as [| ev evs IH]; intros st; [reflexivity |].
    cbn [forallb] in H. apply andb_prop in H. destruct H as [Hev Hevs].
    unfold run in *. cbn [fold_left]. rewrite (IH Hevs).
    apply step_rest. destruct (isResize ev); [discriminate Hev | reflexivity]. }
  split; [exact Hmap |].
  rewrite <- (length_map restOf (dots (run p evs st))), Hmap. apply length_map.
Qed.

(** The one dot of the 16 by 16 grid stays at (8, 8) through a click and
    the end of its inertia tween. *)
Lemma rest_centres_fixed_witness :
  map restOf (dots (run defaultProps [Click click5 rect16; Complete 0 0]
                        {| pointer := pointer0;
                           dots := [{| dot := dot88; tweens := [] |}] |}))
  = [(8, 8)].
Proof.
  refine (proj1 (rest_centres_fixed defaultProps [Click click5 rect16; Complete 0 0]
                   {| pointer := pointer0;
                      dots := [{| dot := dot88; tweens := [] |}] |} _)).
  reflexivity.
Defined.

Lemma restInv_moveDot p pr a : restInv a -> restInv (moveDot p pr a).
Proof.
  intros Ha. unfold moveDot. destruct (moveTriggers p pr a); [| exact Ha].
  intros H. discriminate H.
Qed.

Lemma restInv_clickDot p clx cly a : restInv a -> restInv (clickDot p clx cly a).
Proof.
  intros Ha. unfold clickDot. destruct (clickTriggers p clx cly a); [| exact Ha].
  intros H. discriminate H.
Qed.

Lemma restInv_tickDot xo yo a : restInv a -> restInv (tickDot xo yo a).
Proof.
  intros Ha. unfold tickDot. destruct (tweens a) as [| tw tws] eqn:E; [exact Ha |].
  intros H. cbn in H. congruence.
Qed.

Lemma restInv_completeTween p k a : restInv a -> restInv (completeTween p k a).
Proof.
  intros Ha. unfold completeTween.
  destruct (nth_error (tweens a) k) as [[px py res | dur] |]; [| | exact Ha].
  - intros H. cbn in H. apply app_eq_nil in H. destruct H as [_ H]. discriminate H.
  - intros _. cbn. split; reflexivity.
Qed.

Lemma step_restInv p st ev :
  Forall restInv (dots st) -> Forall restInv (dots (step p st ev)).
Proof.
  intros H. destruct ev as [wrap | now e rect | e rect | i xo yo | i k]; cbn [step].
  - destruct wrap as [rect |]; cbn [rebuild dots]; [| exact H].
    apply Forall_map. apply Forall_forall. intros d Hin _. cbn [dot].
    cbn [buildGrid] in Hin. apply in_flat_map in Hin. destruct Hin as (row & _ & Hin).
    apply in_map_iff in Hin. destruct Hin as (col & <- & _). split; reflexivity.
  - cbn [onMove dots]. apply Forall_map. eapply Forall_impl; [| exact H].
    intros a. apply restInv_moveDot.
  - cbn [onClick dots]. apply Forall_map. eapply Forall_impl; [| exact H].
    intros a. apply restInv_clickDot.
  - cbn [dots]. apply DisplaceFacts.Forall_update_nth; [| exact H].
    intros a. apply restInv_tickDot.
  - cbn [dots]. apply DisplaceFacts.Forall_update_nth; [| exact H].
    intros a. apply restInv_completeTween.
Qed.

Lemma run_restInv p evs : Forall restInv (dots (run p evs state0)).
Proof.
  induction evs as [| ev evs IH] using rev_ind; [constructor |].
  rewrite DisplaceFacts.run_snoc. apply step_restInv. exact IH.
Qed.

(** X17.  In every state the component reaches, a dot with no live tween
    is at rest: its offset is (0, 0), its flag is clear, and a frame
    draws it on its rest centre. *)
Theorem idle_dot_at_rest :
  forall (p : Props) (evs : list Event) (i : nat) (a : Animated) (px py : R),
    nth_error (dots (run p evs state0)) i = Some a ->
    tweens a = [] ->
    xOffset (dot a) = 0 /\ yOffset (dot a) = 0
    /\ _inertiaApplied (dot a) = false
    /\ ox (drawDot p px py (dot a)) = cx (dot a)
    /\ oy (drawDot p px py (dot a)) = cy (dot a).
Proof.
  intros p evs i a px py Hi Ht.
  assert (Hin : In a (dots (run p evs state0))) by (eapply nth_error_In; exact Hi).
  pose proof (run_restInv p evs) as Hr. rewrite Forall_forall in Hr.
  destruct (Hr a Hin Ht) as [Hx Hy].
  pose proof (DisplaceFacts.run_inv p evs) as Hd. rewrite Forall_forall in Hd.
  destruct (Hd a Hin) as [_ Hflag]. unfold inInertia in Hflag. rewrite Ht in Hflag.
  unfold drawDot. cbn [ox oy]. rewrite Hx, Hy.
  repeat split; try assumption; ring.
Qed.

(** The one dot of the 16 by 16 grid, clicked, after both its tweens have
    run to their end. *)
Lemma idle_dot_at_rest_witness :
  xOffset (dot (completeTween defaultProps 0 returning)) = 0.
Proof.
  refine (proj1 (idle_dot_at_rest defaultProps
                   ([Resize (Some rect16); Click click5 rect16; Complete 0 0]
                      ++ [Complete 0 0])
                   0 (completeTween defaultProps 0 returning) 0 0 _ _)).
  - rewrite DisplaceFacts.run_snoc. cbn [step dots].
    rewrite DisplaceFacts.run_returning. reflexivity.
  - rewrite DisplaceFacts.returning_eq. reflexivity.
Defined.

End MachineMore.

(** ** [ClickSpark]: reach, frames and bursts *)

Module SparkMore.
Import ClickSpark ClickSparkAux.
Local Open Scope R_scope.

Lemma hypot_polar (l a : R) : 0 <= l -> JsMath.hypot (l * cos a) (l * sin a) = l.
Proof.
  intros Hl. unfold JsMath.hypot.
  replace (l * cos a * (l * cos a) + l * sin a * (l * sin a))
    with (Rsqr l * (Rsqr (sin a) + Rsqr (cos a))) by (unfold Rsqr; ring).
  rewrite sin2_cos2, Rmult_1_r. apply sqrt_Rsqr. exact Hl.
Qed.

(** X18.  Over the life of a spark (a positive [duration], a frame
    between its birth and [duration] later) with a non-negative
    [sparkSize] and reach [sparkRadius * extraScale]: the near point is at
    [distance] from the click, between 0 and the reach, the far point at
    [distance + lineLength], and the whole stroke stays within
    [max(sparkSize, sparkRadius * extraScale)] of the click. *)
Theorem spark_stays_in_reach :
  forall (p : Props) (ts : R) (spark : Spark),
    0 < duration p ->
    0 <= sparkSize p -> 0 <= sparkRadius p * extraScale p ->
    startTime spark <= ts <= startTime spark + duration p ->
    let line := sparkLine p ts spark in
    let near := JsMath.hypot (x1 line - x spark) (y1 line - y spark) in
    let far := JsMath.hypot (x2 line - x spark) (y2 line - y spark) in
    near = distance p ts spark
    /\ 0 <= near <= sparkRadius p * extraScale p
    /\ far = distance p ts spark + lineLength p ts spark
    /\ near <= far
    /\ far <= Rmax (sparkSize p) (sparkRadius p * extraScale p).
Proof.
  intros p ts spark Hd Hs Hr [Hlo Hhi] line near far.
  destruct (SparkFacts.progress_monotone p spark ts ts Hd Hlo (Rle_refl ts) Hhi)
    as (P0 & _ & P1).
  assert (He : 0 <= eased p ts spark <= 1)
    by (unfold eased; apply SparkFacts.easeFunc_unit; lra).
  assert (Hdist : distance p ts spark = eased p ts spark * (sparkRadius p * extraScale p))
    by (unfold distance; ring).
  assert (Hd0 : 0 <= distance p ts spark <= sparkRadius p * extraScale p).
  { rewrite Hdist. split; [apply Rmult_le_pos; lra |].
    rewrite <- (Rmult_1_l (sparkRadius p * extraScale p)) at 2.
    apply Rmult_le_compat_r; lra. }
  assert (Hl0 : 0 <= lineLength p ts spark)
    by (unfold lineLength; apply Rmult_le_pos; lra).
  assert (Hnear : near = distance p ts spark).
  { subst near line. unfold sparkLine. cbn [x1 y1].
    replace (x spark + distance p ts spark * cos (angle spark) - x spark)
      with (distance p ts spark * cos (angle spark)) by ring.
    replace (y spark + distance p ts spark * sin (angle spark) - y spark)
      with (distance p ts spark * sin (angle spark)) by ring.
    apply hypot_polar. lra. }
  assert (Hfar : far = distance p ts spark + lineLength p ts spark).
  { subst far line. unfold sparkLine. cbn [x2 y2].
    replace (x spark + (distance p ts spark + lineLength p ts spark) * cos (angle spark)
             - x spark)
      with ((distance p ts spark + lineLength p ts spark) * cos (angle spark)) by ring.
    replace (y spark + (distance p ts spark + lineLength p ts spark) * sin (angle spark)
             - y spark)
      with ((distance p ts spark + lineLength p ts spark) * sin (angle spark)) by ring.
    apply hypot_polar. lra. }
  rewrite Hnear, Hfar.
  split; [reflexivity | split; [exact Hd0 | split; [reflexivity | split; [lra |]]]].
  rewrite Hdist. unfold lineLength.
  set (e := eased p ts spark) in *. set (R := sparkRadius p * extraScale p) in *.
  set (S := sparkSize p) in *.
  pose proof (Rmax_l S R). pose proof (Rmax_r S R).
  set (M := Rmax S R) in *.
  assert (e * R <= e * M) by (apply Rmult_le_compat_l; lra).
  assert (S * (1 - e) <= M * (1 - e)) by (apply Rmult_le_compat_r; lra).
  lra.
Qed.

(** A spark of [App] half way through its life: within 25 px of the
    click. *)
Lemma spark_stays_in_reach_witness :
  let spark := {| x := 40; y := 30; angle := PI / 4; startTime := 1000 |} in
  JsMath.hypot (x2 (sparkLine appProps 1200 spark) - 40)
               (y2 (sparkLine appProps 1200 spark) - 30)
  <= Rmax 12 (25 * 1).
Proof.
  intros spark.
  refine (proj2 (proj2 (proj2 (proj2
            (spark_stays_in_reach appProps 1200 spark _ _ _ _))))); cbn; lra.
Defined.

Lemma filter_filter_implied {X : Type} (f g : X -> bool) (l : list X) :
  (forall a, g a = true -> f a = true) -> filter g (filter f l) = filter g l.
Proof.
  intros H. induction l as [| a l IH]; [reflexivity |]. cbn [filter].
  destruct (f a) eqn:Ef; cbn [filter]; destruct (g a) eqn:Eg;
    rewrite ?IH; try reflexivity.
  rewrite (H a Eg) in Ef. discriminate Ef.
Qed.

Lemma draw_draw p t1 t2 sparks :
  t1 <= t2 ->
  fst (draw p t2 (fst (draw p t1 sparks))) = fst (draw p t2 sparks).
Proof.
  intros H. rewrite !SparkFacts.draw_live. apply filter_filter_implied.
  intros s Hs. destruct (expired p t1 s) eqn:E1; [| reflexivity].
  destruct (expired p t2 s) eqn:E2; [discriminate Hs |].
  apply SparkFacts.expired_iff in E1.
  assert (E : expired p t2 s = true) by (apply SparkFacts.expired_iff; lra).
  congruence.
Qed.

(** X19.  The sparks left after a sequence of frames depend on the last
    frame only, when no frame before it has a later time stamp: frames
    that are skipped or doubled change nothing. *)
Theorem frames_last_decides :
  forall (p : Props) (earlier : list R) (ts : R) (sparks : list Spark),
    (forall t, In t earlier -> t <= ts) ->
    frames p (earlier ++ [ts]) sparks = fst (draw p ts sparks).
Proof.
  intros p earlier ts. induction earlier as [| t earlier IH]; intros sparks H.
  - reflexivity.
  - change ((t :: earlier) ++ [ts]) with (t :: (earlier ++ [ts])).
    unfold frames. cbn [fold_left]. fold (frames p (earlier ++ [ts]) (fst (draw p t sparks))).
    rewrite IH by (intros t' Ht'; apply H; right; exact Ht').
    apply draw_draw. apply H. left. reflexivity.
Qed.

Lemma frames_last_decides_witness :
  let e := {| clientX := 40; clientY := 30 |} in
  frames appProps ([1100; 1100; 1250] ++ [1300]) (newSparks appProps 1000 e)
  = fst (draw appProps 1300 (newSparks appProps 1000 e)).
Proof.
  intros e. apply frames_last_decides.
  intros t Ht. cbn [In] in Ht.
  repeat (destruct Ht as [<- | Ht]; [lra |]). contradiction.
Defined.

Lemma filter_all {X : Type} (f : X -> bool) (l : list X) :
  (forall a, In a l -> f a = true) -> filter f l = l.
Proof.
  intros H. induction l as [| a l IH]; [reflexivity |]. cbn [filter].
  rewrite (H a (or_introl eq_refl)). f_equal. apply IH.
  intros a' Ha'. apply H. right. exact Ha'.
Qed.

Lemma filter_none {X : Type} (f : X -> bool) (l : list X) :
  (forall a, In a l -> f a = false) -> filter f l = [].
Proof.
  intros H. induction l as [| a l IH]; [reflexivity |]. cbn [filter].
  rewrite (H a (or_introl eq_refl)). apply IH.
  intros a' Ha'. apply H. right. exact Ha'.
Qed.

Lemma newSparks_startTime p now e s : In s (newSparks p now e) -> startTime s = now.
Proof.
  unfold newSparks. intros H. apply in_map_iff in H. destruct H as (i & <- & _).
  reflexivity.
Qed.

(** X20.  A frame treats the sparks of each click on their own: the
    sparks kept of a collection with a new burst are the sparks kept of
    the collection, then those kept of the burst; and a burst lives and
    dies as a whole - a frame less than [duration] after the click keeps
    all its sparks, any later frame none. *)
Theorem burst_kept_or_dropped_whole :
  forall (p : Props) (ts now : R) (e : MouseEvent) (sparks : list Spark),
    fst (draw p ts (handleClick p now e sparks))
      = fst (draw p ts sparks) ++ fst (draw p ts (newSparks p now e))
    /\ (ts - now < duration p ->
        fst (draw p ts (newSparks p now e)) = newSparks p now e)
    /\ (ts - now >= duration p ->
        fst (draw p ts (newSparks p now e)) = []).
Proof.
  intros p ts now e sparks. split; [| split].
  - rewrite !SparkFacts.draw_live. unfold handleClick. apply filter_app.
  - intros H. rewrite SparkFacts.draw_live. apply filter_all.
    intros s Hs. apply newSparks_startTime in Hs.
    destruct (expired p ts s) eqn:E; [| reflexivity].
    apply SparkFacts.expired_iff in E. rewrite Hs in E. lra.
  - intros H. rewrite SparkFacts.draw_live. apply filter_none.
    intros s Hs. apply newSparks_startTime in Hs.
    assert (E : expired p ts s = true) by (apply SparkFacts.expired_iff; rewrite Hs; exact H).
    rewrite E. reflexivity.
Qed.

(** A burst of [App] 399 ms after its click: all eight sparks are
    there. *)
Lemma burst_kept_or_dropped_whole_witness :
  let e := {| clientX := 40; clientY := 30 |} in
  fst (draw appProps 1399 (newSparks appProps 1000 e)) = newSparks appProps 1000 e.
Proof.
  intros e.
  refine (proj1 (proj2 (burst_kept_or_dropped_whole appProps 1399 1000 e [])) _).
  cbn. lra.
Defined.

(** X21.  The angles of a burst go once round the circle in equal steps:
    they start at 0, grow by [2 pi / sparkCount] from one spark to the
    next, stay below [2 pi], and so are all different. *)
Theorem burst_angles_even :
  forall (p : Props) (now : R) (e : MouseEvent) (i : nat),
    (i < sparkCount p)%nat ->
    option_map angle (nth_error (newSparks p now e) i) = Some (angleOf p i)
    /\ 0 <= angleOf p i < 2 * PI
    /\ angleOf p 0 = 0
    /\ angleOf p (Datatypes.S i) - angleOf p i = 2 * PI / INR (sparkCount p)
    /\ (forall j, (i < j)%nat -> angleOf p i < angleOf p j).
Proof.
  intros p now e i Hi.
  assert (Hn : 0 < INR (sparkCount p)) by (apply lt_0_INR; lia).
  assert (Hin : 0 < / INR (sparkCount p)) by (apply Rinv_0_lt_compat; exact Hn).
  assert (Hpi : 0 < 2 * PI) by (pose proof PI_RGT_0; lra).
  assert (Hstep : 0 < 2 * PI * / INR (sparkCount p)) by (apply Rmult_lt_0_compat; assumption).
  assert (Hform : forall k, angleOf p k = INR k * (2 * PI * / INR (sparkCount p)))
    by (intros k; unfold angleOf, Rdiv; ring).
  split; [| split; [| split; [| split]]].
  - rewrite SparkFacts.newSparks_nth by exact Hi. reflexivity.
  - rewrite Hform. split.
    + apply Rmult_le_pos; [apply pos_INR | lra].
    + replace (2 * PI) with (INR (sparkCount p) * (2 * PI * / INR (sparkCount p))) at 2
        by (field; lra).
      apply Rmult_lt_compat_r; [exact Hstep | apply lt_INR; exact Hi].
  - rewrite Hform. cbn [INR]. ring.
  - rewrite !Hform, S_INR. unfold Rdiv. ring.
  - intros j Hj. rewrite !Hform. apply Rmult_lt_compat_r; [exact Hstep |].
    apply lt_INR. exact Hj.
Qed.

(** The fourth spark of a burst of [App]. *)
Lemma burst_angles_even_witness :
  0 <= angleOf appProps 3 < 2 * PI.
Proof.
  refine (proj1 (proj2 (burst_angles_even appProps 1000
                          {| clientX := 40; clientY := 30 |} 3 _))).
  cbn. lia.
Defined.

(** X22.  The easing curves mirror each other: the default ease-out is
    the ease-in turned round, [out(t) = 1 - in(1 - t)]; the ease-in-out is
    its own mirror image, [io(1 - t) = 1 - io(t)], and passes through
    (1/2, 1/2) where its two pieces meet; and on [[0, 1]] the ease-in is
    below the linear curve and the ease-out above it. *)
Theorem easing_curves_mirror :
  forall (pin plin pio pout : Props) (t : R),
    easing pin = "ease-in"%string ->
    easing plin = "linear"%string ->
    easing pio = "ease-in-out"%string ->
    easing pout = "ease-out"%string ->
    easeFunc pout t = 1 - easeFunc pin (1 - t)
    /\ easeFunc pio (1 - t) = 1 - easeFunc pio t
    /\ easeFunc pio (1 / 2) = 1 / 2
    /\ (0 <= t <= 1 -> easeFunc pin t <= easeFunc plin t <= easeFunc pout t).
Proof.
  intros pin plin pio pout t Hin Hlin Hio Hout.
  assert (Ein : forall u, easeFunc pin u = u * u).
  { intros u. unfold easeFunc. rewrite Hin. reflexivity. }
  assert (Elin : forall u, easeFunc plin u = u).
  { intros u. unfold easeFunc. rewrite Hlin. reflexivity. }
  assert (Eout : forall u, easeFunc pout u = u * (2 - u)).
  { intros u. unfold easeFunc. rewrite Hout. reflexivity. }
  assert (Eio : forall u, (u < 5 / 10 /\ easeFunc pio u = 2 * u * u)
                          \/ (5 / 10 <= u /\ easeFunc pio u = -1 + (4 - 2 * u) * u)).
  { intros u. unfold easeFunc. rewrite Hio. cbn.
    destruct (Rlt_dec u (5 / 10)); [left | right]; split; try reflexivity; lra. }
  split; [| split; [| split]].
  - rewrite Eout, Ein. ring.
  - destruct (Eio t) as [[Ht ->] | [Ht ->]]; destruct (Eio (1 - t)) as [[Hu ->] | [Hu ->]];
      try lra; try ring.
    assert (t = 5 / 10) by lra. subst t. lra.
  - destruct (Eio (1 / 2)) as [[Ht ->] | [Ht ->]]; lra.
  - intros [H0 H1]. rewrite Ein, Elin, Eout. split; nra.
Qed.

Lemma easing_curves_mirror_witness :
  easeFunc (withEasing "ease-out") (1 / 4)
  = 1 - easeFunc (withEasing "ease-in") (1 - 1 / 4).
Proof.
  refine (proj1 (easing_curves_mirror (withEasing "ease-in") (withEasing "linear")
                   (withEasing "ease-in-out") (withEasing "ease-out") (1 / 4) _ _ _ _));
    reflexivity.
Defined.

End SparkMore.

(** ** The canvas of [ClickSpark] under resizes *)

Module CanvasMore.
Import SparkCanvas.
Local Open Scope R_scope.

Lemma canvas_run_snoc evs ev st : run (evs ++ [ev]) st = step (run evs st) ev.
Proof. unfold run. rewrite fold_left_app. reflexivity. Qed.

Lemma lastResized_snoc evs ev :
  lastResized (evs ++ [ev]) =
  match ev with
  | WindowResized now _ => Some now
  | TimerFires _ => lastResized evs
  end.
Proof.
  induction evs as [| ev0 evs IH]; [destruct ev; reflexivity |].
  cbn [app lastResized]. rewrite IH.
  destruct ev0, ev; try reflexivity; destruct (lastResized evs); reflexivity.
Qed.

Lemma run_canvasInv win canvas0 evs : canvasInv evs (run evs (mount win canvas0)).
Proof.
  induction evs as [| ev evs IH] using rev_ind.
  - split; [reflexivity | intros due H; discriminate H].
  - rewrite canvas_run_snoc. destruct IH as [Hnone Hsome].
    destruct ev as [now size | now]; cbn [step].
    + split; [intros H; discriminate H |].
      intros due H. cbn in H. injection H as <-.
      exists now. rewrite lastResized_snoc. split; reflexivity.
    + destruct (resizeTimeout (run evs (mount win canvas0))) as [due |] eqn:E.
      * destruct (Rle_dec due now).
        -- split; [reflexivity | intros d H; discriminate H].
        -- split; [intros H; congruence |].
           intros d H. rewrite lastResized_snoc. apply Hsome. congruence.
      * split; [intros _; apply Hnone; reflexivity |]. intros d H. congruence.
Qed.

(** X23.  The canvas of the spark layer follows the window, debounced:
    in every state a mount and any resizes and timer runs lead to, the
    canvas has the window's size whenever no timer is armed; a timer that
    runs [resizeCanvas] does so 100 ms or more after the last resize,
    gives the canvas the window's size and leaves no timer armed; and a
    resize before the timer has run puts the resizing off again. *)
Theorem canvas_follows_window :
  forall (win canvas0 : Size) (evs : list Event),
    let st := run evs (mount win canvas0) in
    (resizeTimeout st = None -> canvas st = window st)
    /\ (forall now,
          fires st (TimerFires now) = true ->
          (exists t, lastResized evs = Some t /\ now - t >= 100)
          /\ canvas (step st (TimerFires now)) = window st
          /\ resizeTimeout (step st (TimerFires now)) = None)
    /\ (forall now, fires st (TimerFires now) = false -> step st (TimerFires now) = st)
    /\ (forall now size,
          canvas (step st (WindowResized now size)) = canvas st
          /\ resizeTimeout (step st (WindowResized now size)) = Some (now + 100)).
Proof.
  intros win canvas0 evs st.
  destruct (run_canvasInv win canvas0 evs) as [Hnone Hsome]. fold st in Hnone, Hsome.
  split; [exact Hnone | split; [| split]].
  - intros now Hf. unfold fires in Hf. cbn [step].
    destruct (resizeTimeout st) as [due |] eqn:E; [| discriminate Hf].
    destruct (Rle_dec due now) as [Hle | _]; [| discriminate Hf].
    destruct (Hsome due eq_refl) as (t & Ht & ->).
    split; [exists t; split; [exact Ht | lra] | split; reflexivity].
  - intros now Hf. unfold fires in Hf. cbn [step].
    destruct (resizeTimeout st) as [due |]; [| reflexivity].
    destruct (Rle_dec due now); [discriminate Hf | reflexivity].
  - intros now size. split; reflexivity.
Qed.

(** The window goes from 800 by 600 to 1024 by 768 in two steps 40 ms
    apart; the timer runs at 1200 ms. *)
Lemma canvas_follows_window_witness :
  canvas (run [WindowResized 1000 {| w := 900; h := 700 |};
               WindowResized 1040 {| w := 1024; h := 768 |};
               TimerFires 1200]
              (mount {| w := 800; h := 600 |} {| w := 300; h := 150 |}))
  = {| w := 1024; h := 768 |}.
Proof.
  change [WindowResized 1000 {| w := 900; h := 700 |};
          WindowResized 1040 {| w := 1024; h := 768 |}; TimerFires 1200]
    with ([WindowResized 1000 {| w := 900; h := 700 |};
           WindowResized 1040 {| w := 1024; h := 768 |}] ++ [TimerFires 1200]).
  rewrite canvas_run_snoc.
  refine (proj1 (proj2 (proj1 (proj2
            (canvas_follows_window {| w := 800; h := 600 |} {| w := 300; h := 150 |}
               [WindowResized 1000 {| w := 900; h := 700 |};
                WindowResized 1040 {| w := 1024; h := 768 |}])) 1200 _))).
  unfold fires. cbn [run fold_left step handleResize resizeTimeout].
  destruct (Rle_dec (1040 + 100) 1200); [reflexivity | lra].
Defined.

End CanvasMore.

(** ** [handlePunchEffect]: the punch ends *)

Module PunchMore.
Import Punch.
Local Open Scope R_scope.

Lemma punch_run_snoc evs ev st : run (evs ++ [ev]) st = step (run evs st) ev.
Proof. unfold run. rewrite fold_left_app. reflexivity. Qed.

Lemma remove_nth_In k l t : In t (remove_nth k l) -> In t l.
Proof.
  revert k. induction l as [| h l IH]; intros k H; [destruct k; exact H |].
  destruct k as [| k]; cbn [remove_nth] in H.
  - right. exact H.
  - destruct H as [<- | H]; [left; reflexivity | right; apply (IH k H)].
Qed.

Lemma run_punchInv evs : punchInv evs (run evs state0).
Proof.
  induction evs as [| ev evs IH] using rev_ind.
  - split; [intros H; discriminate H | intros due []].
  - rewrite punch_run_snoc. destruct IH as [Hflag Htimers].
    destruct ev as [now | k now]; cbn [step].
    + split.
      * intros _ H. cbn in H. apply app_eq_nil in H. destruct H as [_ H]. discriminate H.
      * intros due H. cbn in H. apply in_app_or in H. destruct H as [H | [<- | []]].
        -- destruct (Htimers due H) as (t & Ht & ->). exists t.
           split; [apply in_or_app; left; exact Ht | reflexivity].
        -- exists now. split; [apply in_or_app; right; left; reflexivity | reflexivity].
    + assert (Hkeep : forall due, In due (timers (run evs state0)) ->
                exists t, In (AvatarClicked t) (evs ++ [TimerFires k now]) /\ due = t + 300).
      { intros due H. destruct (Htimers due H) as (t & Ht & ->). exists t.
        split; [apply in_or_app; left; exact Ht | reflexivity]. }
      destruct (nth_error (timers (run evs state0)) k) as [due |] eqn:E.
      * destruct (Rle_dec due now).
        -- split; [intros H; discriminate H |].
           intros d H. cbn in H. apply remove_nth_In in H. apply Hkeep. exact H.
        -- split; [exact Hflag | exact Hkeep].
      * split; [exact Hflag | exact Hkeep].
Qed.

(** X24.  The avatar cannot stay in its punch: in every state clicks and
    timer runs lead to, while [isPunching] is set a timer is armed that
    will clear it, and every armed timer is due 300 ms after a click.
    Any timer that runs clears the flag - also while the timer of a later
    click is still armed, so a second click does not prolong the punch
    of the first. *)
Theorem punch_always_ends :
  forall (evs : list Event),
    let st := run evs state0 in
    (isPunching st = true -> timers st <> [])
    /\ (forall due, In due (timers st) ->
                    exists now, In (AvatarClicked now) evs /\ due = now + 300)
    /\ (forall k now due,
          nth_error (timers st) k = Some due -> due <= now ->
          isPunching (step st (TimerFires k now)) = false
          /\ Datatypes.S (List.length (timers (step st (TimerFires k now))))
             = List.length (timers st))
    /\ (forall now, isPunching (step st (AvatarClicked now)) = true).
Proof.
  intros evs st. destruct (run_punchInv evs) as [Hflag Htimers]. fold st in Hflag, Htimers.
  split; [exact Hflag | split; [exact Htimers | split; [| reflexivity]]].
  intros k now due Hk Hdue. cbn [step]. rewrite Hk.
  destruct (Rle_dec due now); [| contradiction]. cbn [isPunching timers].
  split; [reflexivity |].
  clear - Hk. revert k Hk. induction (timers st) as [| h l IH]; intros k Hk.
  - destruct k; discriminate Hk.
  - destruct k as [| k]; cbn [remove_nth List.length]; [reflexivity |].
    cbn [nth_error] in Hk. rewrite (IH k Hk). reflexivity.
Qed.

(** Two clicks 200 ms apart: the timer of the first runs at 300 ms and
    clears the flag, 100 ms into the second punch. *)
Lemma punch_always_ends_witness :
  isPunching (step (run [AvatarClicked 0; AvatarClicked 200] state0) (TimerFires 0 300))
  = false.
Proof.
  refine (proj1 (proj1 (proj2 (proj2
            (punch_always_ends [AvatarClicked 0; AvatarClicked 200]))) 0%nat 300 (0 + 300) _ _)).
  - reflexivity.
  - lra.
Defined.

End PunchMore.

(** ** The text emphasis: how far it goes *)

Module TextMore.
Import JsMath TextEmphasis.
Local Open Scope R_scope.

Lemma distOf_nonneg rect mx my : 0 <= distOf rect mx my.
Proof. unfold distOf. apply sqrt_pos. Qed.

Lemma emphasis_near rect mx my :
  distOf rect mx my < triggerRadius ->
  emphasis rect mx my =
  {| scale := 1 + (15 / 100) * (1 - distOf rect mx my / triggerRadius);
     shadow := 3 * (1 - distOf rect mx my / triggerRadius);
     shadowColor := "var(--primary-color)";
     color := "#333";
     duration := 1 / 10 |}.
Proof.
  intros H. unfold emphasis. destruct (Rlt_dec _ _); [reflexivity | contradiction].
Qed.

Lemma emphasis_far rect mx my :
  triggerRadius <= distOf rect mx my ->
  emphasis rect mx my =
  {| scale := 1; shadow := 0; shadowColor := "transparent"; color := "";
     duration := 3 / 10 |}.
Proof.
  intros H. unfold emphasis. destruct (Rlt_dec _ _); [lra | reflexivity].
Qed.

(** X25.  For every text element and pointer position the emphasis is
    bounded: the scale aimed at is between 1 and 1.15 and the shadow
    offset between 0 and 3 px, the two tied by [scale = 1 + shadow / 20];
    150 px or more from the centre of the element's box the target is
    the neutral one (scale 1, no shadow); on the centre it is the full
    one (1.15 and 3 px); and of two pointer positions the one nearer the
    centre gives the larger scale, or the same. *)
Theorem emphasis_bounded :
  forall (rect : Rect) (mx my : R),
    let v := emphasis rect mx my in
    1 <= scale v <= 1 + 15 / 100
    /\ 0 <= shadow v <= 3
    /\ scale v = 1 + shadow v / 20
    /\ (150 <= distOf rect mx my -> scale v = 1 /\ shadow v = 0 /\ duration v = 3 / 10)
    /\ (distOf rect mx my = 0 -> scale v = 1 + 15 / 100 /\ shadow v = 3)
    /\ (forall mx' my',
          distOf rect mx my <= distOf rect mx' my' ->
          scale (emphasis rect mx' my') <= scale v).
Proof.
  intros rect mx my v. subst v.
  pose proof (distOf_nonneg rect mx my) as H0.
  assert (Hunit : forall d, 0 <= d < triggerRadius -> 0 < 1 - d / triggerRadius <= 1).
  { intros d [Hd0 Hd1]. unfold triggerRadius in *. lra. }
  destruct (Rlt_or_le (distOf rect mx my) triggerRadius) as [Hn | Hf].
  - rewrite (emphasis_near _ _ _ Hn). cbn [scale shadow duration].
    pose proof (Hunit _ (conj H0 Hn)) as Hi.
    split; [lra | split; [lra | split; [lra | split; [| split]]]].
    + intros H. unfold triggerRadius in Hn. lra.
    + intros ->. unfold triggerRadius. lra.
    + intros mx' my' Hle.
      destruct (Rlt_or_le (distOf rect mx' my') triggerRadius) as [Hn' | Hf'].
      * rewrite (emphasis_near _ _ _ Hn'). cbn [scale]. unfold triggerRadius in *. lra.
      * rewrite (emphasis_far _ _ _ Hf'). cbn [scale]. lra.
  - rewrite (emphasis_far _ _ _ Hf). cbn [scale shadow duration].
    split; [lra | split; [lra | split; [lra | split; [| split]]]].
    + intros _. repeat split; reflexivity.
    + intros H. unfold triggerRadius in Hf. lra.
    + intros mx' my' Hle.
      rewrite emphasis_far by lra. cbn [scale]. lra.
Qed.

(** The pointer on the centre of a box of 100 by 20 at (50, 40). *)
Lemma emphasis_bounded_witness :
  let rect := {| left := 50; top := 40; width := 100; height := 20 |} in
  scale (emphasis rect 100 50) = 1 + 15 / 100
  /\ shadow (emphasis rect 100 50) = 3.
Proof.
  intros rect.
  refine (proj1 (proj2 (proj2 (proj2 (proj2 (emphasis_bounded rect 100 50))))) _).
  unfold distOf, hypot. cbn [left top width height rect].
  replace ((50 + 100 / 2 - 100) * (50 + 100 / 2 - 100)
           + (40 + 20 / 2 - 50) * (40 + 20 / 2 - 50)) with 0 by field.
  apply sqrt_0.
Defined.

End TextMore.
